(** * PerfectCircle: the circle scoring engine and the capture state machine

    A shallow embedding of [analyzeCircle] and of the gesture handlers of
    the [App] component, with the properties the specification states
    about them.

    Number model.  [analyzeCircle] is embedded twice.  In the first
    embedding a JavaScript [number] is idealised as a real number: the
    arithmetic is exact, without rounding, overflow, [NaN] or
    infinities, and every statement about that embedding is a statement
    about exact arithmetic.  The second embedding, [Binary64.analyzeCircle],
    computes on binary64 floating-point numbers as the program does; it
    is executable, and it shows where rounding makes the program depart
    from the exact arithmetic. *)

From Stdlib Require Import Reals Lra Lia List Bool Arith.
From Stdlib Require String.
Import (notations) String.
From Stdlib Require Import ZArith.
From Stdlib Require PrimFloat Uint63.
Import (notations) PrimFloat.
Import ListNotations.

Open Scope R_scope.

(** ** Type definitions *)

Record Point : Type := mkPoint { x : R; y : R }.

Record AnalysisResult : Type := mkResult
  { score : R; center : Point; radius : R }.

Inductive AppState : Type := IDLE | DRAWING | ANALYZING | RESULT.

Inductive CopyState : Type := COPY_IDLE | COPIED.

(** ** The functions of the [Math] object that the code calls *)

Module Math.

Definition hypot (a b : R) : R := sqrt (a * a + b * b).

Definition pow (b : R) (e : nat) : R := b ^ e.

Definition sqrt (a : R) : R := R_sqrt.sqrt a.

Definition max (a b : R) : R := Rmax a b.

Definition min (a b : R) : R := Rmin a b.

End Math.

(** [a === b] on numbers. *)
Definition strictEq (a b : R) : bool :=
  if Req_dec_T a b then true else false.

(** ** analyzeCircle

    Each [const] of the function body is a function of [path];
    [Array.prototype.reduce] is [fold_left], [path.length] is
    [INR (length path)]. *)

Definition centroid (path : list Point) : Point :=
  fold_left (fun acc p => {| x := x acc + x p; y := y acc + y p |})
            path {| x := 0; y := 0 |}.

Definition centerX (path : list Point) : R :=
  x (centroid path) / INR (length path).

Definition centerY (path : list Point) : R :=
  y (centroid path) / INR (length path).

Definition centerOf (path : list Point) : Point :=
  {| x := centerX path; y := centerY path |}.

Definition radii (path : list Point) : list R :=
  map (fun p => Math.hypot (x p - centerX path) (y p - centerY path)) path.

Definition meanRadius (path : list Point) : R :=
  fold_left (fun sum r => sum + r) (radii path) 0 / INR (length (radii path)).

Definition variance (path : list Point) : R :=
  fold_left (fun sum r => sum + Math.pow (r - meanRadius path) 2)
            (radii path) 0
  / INR (length (radii path)).

Definition stdDev (path : list Point) : R := Math.sqrt (variance path).

Definition normalizedDeviation (path : list Point) : R :=
  stdDev path / meanRadius path.

Definition scoreFromShape (path : list Point) : R :=
  Math.max 0 ((1 - normalizedDeviation path * 3) * 100).

(** [path[i]]; the default stands for an index outside the array, which
    the guarded evaluation below shows is never read. *)
Definition at_ (path : list Point) (i : nat) : Point :=
  nth i path {| x := 0; y := 0 |}.

Definition startPoint (path : list Point) : Point := at_ path 0.

Definition endPoint (path : list Point) : Point :=
  at_ path (length path - 1).

Definition closingDistance (path : list Point) : R :=
  Math.hypot (x (endPoint path) - x (startPoint path))
             (y (endPoint path) - y (startPoint path)).

Definition closingPenalty (path : list Point) : R :=
  Math.min 1 (closingDistance path / meanRadius path) * 25.

Definition finalScore (path : list Point) : R :=
  Math.max 0 (scoreFromShape path - closingPenalty path).

Definition analyzeCircle (path : list Point) : option AnalysisResult :=
  if (length path <? 10)%nat then None
  else if strictEq (meanRadius path) 0 then None
  else Some {| score := finalScore path;
               center := centerOf path;
               radius := meanRadius path |}.

(** ** Guarded evaluation of analyzeCircle

    The same function body, run where the partial operations can go
    wrong: reading a property of [path[i]] throws when [i] is outside
    the array ([path[i]] is [undefined]), and a division whose divisor
    is zero is flagged (JavaScript does not throw there, it yields an
    infinity or [NaN], which is no score). *)

Inductive Fault : Type := UndefinedAccess | ZeroDivisor.

Inductive Outcome (A : Type) : Type :=
| Ok (a : A)
| Throw (f : Fault).

Arguments Ok {A} a.
Arguments Throw {A} f.

Definition bind {A B : Type} (m : Outcome A) (k : A -> Outcome B)
  : Outcome B :=
  match m with
  | Ok a => k a
  | Throw f => Throw f
  end.

Notation "'let!' v ':=' m 'in' k" := (bind m (fun v => k))
  (at level 10, v name, m at level 100, k at level 200).

Definition divide (a b : R) : Outcome R :=
  if strictEq b 0 then Throw ZeroDivisor else Ok (a / b).

Definition index (path : list Point) (i : nat) : Outcome Point :=
  match nth_error path i with
  | Some p => Ok p
  | None => Throw UndefinedAccess
  end.

Definition analyzeCircle_guarded (path : list Point)
  : Outcome (option AnalysisResult) :=
  if (length path <? 10)%nat then Ok None else
  let centroid :=
    fold_left (fun acc p => {| x := x acc + x p; y := y acc + y p |})
              path {| x := 0; y := 0 |} in
  let! centerX := divide (x centroid) (INR (length path)) in
  let! centerY := divide (y centroid) (INR (length path)) in
  let center := {| x := centerX; y := centerY |} in
  let radii :=
    map (fun p => Math.hypot (x p - centerX) (y p - centerY)) path in
  let! meanRadius :=
    divide (fold_left (fun sum r => sum + r) radii 0)
           (INR (length radii)) in
  if strictEq meanRadius 0 then Ok None else
  let! variance :=
    divide (fold_left (fun sum r => sum + Math.pow (r - meanRadius) 2)
                      radii 0)
           (INR (length radii)) in
  let stdDev := Math.sqrt variance in
  let! normalizedDeviation := divide stdDev meanRadius in
  let scoreFromShape :=
    Math.max 0 ((1 - normalizedDeviation * 3) * 100) in
  let! startPoint := index path 0 in
  let! endPoint := index path (length path - 1) in
  let closingDistance :=
    Math.hypot (x endPoint - x startPoint) (y endPoint - y startPoint) in
  let! ratio := divide closingDistance meanRadius in
  let closingPenalty := Math.min 1 ratio * 25 in
  let finalScore := Math.max 0 (scoreFromShape - closingPenalty) in
  Ok (Some {| score := finalScore; center := center;
              radius := meanRadius |}).

(** An [AnalysisResult] of the data model: a score in [0, 100] and a
    positive radius. *)
Definition wellFormed (r : AnalysisResult) : Prop :=
  0 <= score r <= 100 /\ 0 < radius r.

(** Translation of a point, of a path and of a result by a constant
    vector. *)
Definition translate (dx dy : R) (p : Point) : Point :=
  {| x := x p + dx; y := y p + dy |}.

Definition translatePath (dx dy : R) (path : list Point) : list Point :=
  map (translate dx dy) path.

Definition translateResult (dx dy : R) (r : AnalysisResult)
  : AnalysisResult :=
  {| score := score r; center := translate dx dy (center r);
     radius := radius r |}.

(** Every point of the path lies on the circle of centre [c] and radius
    [rad]. *)
Definition onCircle (c : Point) (rad : R) (path : list Point) : Prop :=
  Forall (fun p => Math.hypot (x p - x c) (y p - y c) = rad) path.

(** ** The scoring algorithm in the words of the specification *)

Module Spec.

Fixpoint sum (l : list R) : R :=
  match l with
  | [] => 0
  | a :: l' => a + sum l'
  end.

Definition mean (l : list R) : R := sum l / INR (length l).

Definition distance (p q : Point) : R :=
  sqrt (Rsqr (x p - x q) + Rsqr (y p - y q)).

Definition centroid (path : list Point) : Point :=
  {| x := mean (map x path); y := mean (map y path) |}.

Definition radialDistances (path : list Point) : list R :=
  map (fun p => distance p (centroid path)) path.

Definition meanRadius (path : list Point) : R :=
  mean (radialDistances path).

Definition populationVariance (l : list R) : R :=
  mean (map (fun r => Rsqr (r - mean l)) l).

Definition stdDev (path : list Point) : R :=
  sqrt (populationVariance (radialDistances path)).

Definition origin : Point := {| x := 0; y := 0 |}.

Definition closingDistance (path : list Point) : R :=
  distance (hd origin path) (last path origin).

Definition score (path : list Point) : R :=
  Rmax 0 (Rmax 0 ((1 - 3 * (stdDev path / meanRadius path)) * 100)
          - Rmin 1 (closingDistance path / meanRadius path) * 25).

End Spec.

(** ** The capture state machine

    The component state is the tuple of its [useState] cells.  A handler
    is a function on that state: the [set...] calls of one handler run
    are applied together.  [setTimeout] appends its callback to the
    deferred callbacks; a callback is represented by the array it closes
    over.  [coords] is the value [getCanvasCoordinates] (or [getCoords])
    returned for the event, [None] for [undefined]. *)

(** The events of the interface: pointer or touch down, move and up, a
    click on the reset button, and the expiry of the oldest timer. *)
Inductive Event : Type :=
| GestureStart (coords : option Point)
| GestureMove (coords : option Point)
| GestureEnd
| ResetClick
| Timeout.

Definition appStateEq (a b : AppState) : bool :=
  match a, b with
  | IDLE, IDLE | DRAWING, DRAWING | ANALYZING, ANALYZING
  | RESULT, RESULT => true
  | _, _ => false
  end.

(** *** src/unnamed/part_000: move and end listeners on [window] *)

Module WindowListeners.

Record Component : Type := mkComponent
  { points : list Point;
    appState : AppState;
    result : option AnalysisResult;
    copyStatus : CopyState;
    listening : bool;             (* the four window listeners are registered *)
    deferred : list (list Point)  (* pending setTimeout callbacks, oldest first *) }.

Definition initial : Component :=
  {| points := []; appState := IDLE; result := None;
     copyStatus := COPY_IDLE; listening := false; deferred := [] |}.

Definition handleDrawing (coords : option Point) (s : Component)
  : Component :=
  match coords with
  | Some c =>
      {| points := points s ++ [c]; appState := appState s;
         result := result s; copyStatus := copyStatus s;
         listening := listening s; deferred := deferred s |}
  | None => s
  end.

Definition handleEndDrawing (s : Component) : Component :=
  if (length (points s) <? 10)%nat then
    {| points := []; appState := IDLE; result := None;
       copyStatus := copyStatus s; listening := false;
       deferred := deferred s |}
  else
    {| points := points s; appState := ANALYZING; result := result s;
       copyStatus := copyStatus s; listening := false;
       deferred := deferred s ++ [points s] |}.

(** The callback handed to [setTimeout] in [handleEndDrawing]. *)
Definition analysisCallback (currentPoints : list Point) (s : Component)
  : Component :=
  let analysis := analyzeCircle currentPoints in
  {| points := points s; appState := RESULT; result := analysis;
     copyStatus := copyStatus s; listening := listening s;
     deferred := deferred s |}.

Definition handleStartDrawing (coords : option Point) (s : Component)
  : Component :=
  {| points := match coords with Some c => [c] | None => points s end;
     appState := DRAWING; result := None; copyStatus := COPY_IDLE;
     listening := true; deferred := deferred s |}.

Definition handleReset (s : Component) : Component :=
  {| points := []; appState := IDLE; result := None;
     copyStatus := COPY_IDLE; listening := listening s;
     deferred := deferred s |}.

(** The oldest deferred callback runs. *)
Definition timerFires (s : Component) : Component :=
  match deferred s with
  | [] => s
  | currentPoints :: rest =>
      analysisCallback currentPoints
        {| points := points s; appState := appState s;
           result := result s; copyStatus := copyStatus s;
           listening := listening s; deferred := rest |}
  end.

(** What the rendered interface delivers: the canvas always takes a
    gesture-start, the window listeners carry move and end only while
    registered, and the reset button exists only in state [RESULT]. *)
Definition dispatch (s : Component) (e : Event) : Component :=
  match e with
  | GestureStart coords => handleStartDrawing coords s
  | GestureMove coords =>
      if listening s then handleDrawing coords s else s
  | GestureEnd => if listening s then handleEndDrawing s else s
  | ResetClick =>
      if appStateEq (appState s) RESULT then handleReset s else s
  | Timeout => timerFires s
  end.

Definition run (s : Component) (es : list Event) : Component :=
  fold_left dispatch es s.

End WindowListeners.

(** *** src/App.tsx: move and end handlers on the canvas element *)

Module CanvasHandlers.

Record Component : Type := mkComponent
  { points : list Point;
    appState : AppState;
    result : option AnalysisResult;
    deferred : list (list Point) }.

Definition initial : Component :=
  {| points := []; appState := IDLE; result := None; deferred := [] |}.

Definition handleStartDrawing (coords : option Point) (s : Component)
  : Component :=
  {| points := match coords with Some c => [c] | None => points s end;
     appState := DRAWING; result := None; deferred := deferred s |}.

Definition handleDrawing (coords : option Point) (s : Component)
  : Component :=
  match appState s with
  | DRAWING =>
      match coords with
      | Some c =>
          {| points := points s ++ [c]; appState := appState s;
             result := result s; deferred := deferred s |}
      | None => s
      end
  | _ => s
  end.

Definition handleEndDrawing (s : Component) : Component :=
  match appState s with
  | DRAWING =>
      if (length (points s) <? 10)%nat then
        {| points := []; appState := IDLE; result := None;
           deferred := deferred s |}
      else
        {| points := points s; appState := ANALYZING;
           result := result s; deferred := deferred s ++ [points s] |}
  | _ =>
      {| points := []; appState := IDLE; result := None;
         deferred := deferred s |}
  end.

Definition analysisCallback (capturedPoints : list Point) (s : Component)
  : Component :=
  let analysis := analyzeCircle capturedPoints in
  {| points := points s; appState := RESULT; result := analysis;
     deferred := deferred s |}.

Definition handleReset (s : Component) : Component :=
  {| points := []; appState := IDLE; result := None;
     deferred := deferred s |}.

Definition timerFires (s : Component) : Component :=
  match deferred s with
  | [] => s
  | capturedPoints :: rest =>
      analysisCallback capturedPoints
        {| points := points s; appState := appState s;
           result := result s; deferred := rest |}
  end.

(** What the rendered interface delivers: the canvas element carries
    start, move, end (mouse up, mouse leave, touch end) at any time, and
    the reset button exists only in state [RESULT]. *)
Definition dispatch (s : Component) (e : Event) : Component :=
  match e with
  | GestureStart coords => handleStartDrawing coords s
  | GestureMove coords => handleDrawing coords s
  | GestureEnd => handleEndDrawing s
  | ResetClick =>
      if appStateEq (appState s) RESULT then handleReset s else s
  | Timeout => timerFires s
  end.

Definition run (s : Component) (es : list Event) : Component :=
  fold_left dispatch es s.

End CanvasHandlers.

(** ** Sample paths and gestures *)

(** Ten samples alternating between (1, 0) and (-1, 0). *)
Definition zigzag : list Point :=
  [ {| x := 1; y := 0 |}; {| x := -1; y := 0 |};
    {| x := 1; y := 0 |}; {| x := -1; y := 0 |};
    {| x := 1; y := 0 |}; {| x := -1; y := 0 |};
    {| x := 1; y := 0 |}; {| x := -1; y := 0 |};
    {| x := 1; y := 0 |}; {| x := -1; y := 0 |} ].

(** Nine samples at (2, 0) and a last one at (1, sqrt 3): every sample
    is on the circle of radius 2 about the origin, and the first and the
    last sample are 2 apart. *)
Definition dwellArc : list Point :=
  repeat {| x := 2; y := 0 |} 9 ++ [ {| x := 1; y := sqrt 3 |} ].

(** Ten samples on the x axis, with the mean radius and the closing
    distance of [zigzag] but unequal radii. *)
Definition lopsided : list Point :=
  [ {| x := 1; y := 0 |}; {| x := 2; y := 0 |};
    {| x := -2; y := 0 |}; {| x := 2; y := 0 |};
    {| x := -2; y := 0 |}; {| x := 0; y := 0 |};
    {| x := 0; y := 0 |}; {| x := 0; y := 0 |};
    {| x := 0; y := 0 |}; {| x := -1; y := 0 |} ].

(** The gesture that draws [path]: a start at its first sample, a move
    for each further sample, then the end. *)
Definition gesture (path : list Point) : list Event :=
  match path with
  | [] => []
  | p :: rest =>
      GestureStart (Some p)
      :: map (fun q => GestureMove (Some q)) rest ++ [GestureEnd]
  end.

(** The first nine samples of [zigzag]: too short to be analysed. *)
Definition shortPath : list Point := firstn 9 zigzag.

(** ** analyzeCircle on binary64 numbers

    The same function body on IEEE 754 binary64 numbers.  [+], [-], [*],
    [/] and [Math.sqrt] are the correctly rounded operations.
    [Math.hypot] and [Math.pow] are left to the implementation by the
    language standard; the embedding takes the rounded [sqrt (a*a + b*b)]
    and the repeated product.  [path[i]] outside the array is
    [undefined]; the embedding reads a point of [NaN]s there, which the
    length guard keeps from being read. *)

Module Binary64.

Abbreviation float := PrimFloat.float.

Record Point : Type := mkPoint { x : float; y : float }.

Record AnalysisResult : Type := mkResult
  { score : float; center : Point; radius : float }.

(** The number whose value is the array length [n]. *)
Definition number (n : nat) : float :=
  PrimFloat.of_uint63 (Uint63.of_Z (Z.of_nat n)).

Module Math.

Definition sqrt (a : float) : float := PrimFloat.sqrt a.

Definition hypot (a b : float) : float :=
  PrimFloat.sqrt (a * a + b * b)%float.

Fixpoint pow (b : float) (e : nat) : float :=
  match e with
  | O => 1%float
  | S e' => (b * pow b e')%float
  end.

(** [Math.max] and [Math.min] of two numbers: [NaN] when an argument is
    [NaN], and [+0] counts as larger than [-0]. *)
Definition max (a b : float) : float :=
  if orb (PrimFloat.is_nan a) (PrimFloat.is_nan b) then PrimFloat.nan
  else if (a <? b)%float then b
  else if (b <? a)%float then a
  else if PrimFloat.get_sign a then b else a.

Definition min (a b : float) : float :=
  if orb (PrimFloat.is_nan a) (PrimFloat.is_nan b) then PrimFloat.nan
  else if (a <? b)%float then a
  else if (b <? a)%float then b
  else if PrimFloat.get_sign a then a else b.

End Math.

Definition undefinedPoint : Point :=
  {| x := PrimFloat.nan; y := PrimFloat.nan |}.

Definition analyzeCircle (path : list Point) : option AnalysisResult :=
  if (length path <? 10)%nat then None else
  let centroid :=
    fold_left (fun acc p => {| x := (x acc + x p)%float;
                               y := (y acc + y p)%float |})
              path {| x := 0%float; y := 0%float |} in
  let centerX := (x centroid / number (length path))%float in
  let centerY := (y centroid / number (length path))%float in
  let center := {| x := centerX; y := centerY |} in
  let radii :=
    map (fun p => Math.hypot (x p - centerX)%float (y p - centerY)%float)
        path in
  let meanRadius :=
    (fold_left (fun sum r => (sum + r)%float) radii 0%float
     / number (length radii))%float in
  if (meanRadius =? 0)%float then None else
  let variance :=
    (fold_left (fun sum r => (sum + Math.pow (r - meanRadius) 2)%float)
               radii 0%float
     / number (length radii))%float in
  let stdDev := Math.sqrt variance in
  let normalizedDeviation := (stdDev / meanRadius)%float in
  let scoreFromShape :=
    Math.max 0%float ((1 - normalizedDeviation * 3) * 100)%float in
  let startPoint := nth 0 path undefinedPoint in
  let endPoint := nth (length path - 1) path undefinedPoint in
  let closingDistance :=
    Math.hypot (x endPoint - x startPoint)%float
               (y endPoint - y startPoint)%float in
  let closingPenalty :=
    (Math.min 1%float (closingDistance / meanRadius) * 25)%float in
  let finalScore := Math.max 0%float (scoreFromShape - closingPenalty)%float in
  Some {| score := finalScore; center := center; radius := meanRadius |}.

Definition translate (dx dy : float) (p : Point) : Point :=
  {| x := (x p + dx)%float; y := (y p + dy)%float |}.

Definition translatePath (dx dy : float) (path : list Point) : list Point :=
  map (translate dx dy) path.

End Binary64.

(** Ten samples at the same position (0.1, 0.1), and ten at
    (100.1, 200.7); the literals are the binary64 numbers that the
    decimals denote. *)
Definition stillPath : list Binary64.Point :=
  repeat (Binary64.mkPoint 0x1.999999999999ap-4 0x1.999999999999ap-4) 10.

Definition stillPath' : list Binary64.Point :=
  repeat (Binary64.mkPoint 0x1.9066666666666p+6 0x1.9166666666666p+7) 10.

(** Ten samples at whole pixel positions. *)
Definition pixelPath : list Binary64.Point :=
  [ Binary64.mkPoint 5 0; Binary64.mkPoint 9 2; Binary64.mkPoint 8 7;
    Binary64.mkPoint 6 9; Binary64.mkPoint 7 2; Binary64.mkPoint 7 9;
    Binary64.mkPoint 2 5; Binary64.mkPoint 2 0; Binary64.mkPoint 4 2;
    Binary64.mkPoint 2 6 ].

(** Two complete gestures, the second started before the analysis of
    the first was delivered, then the expiry of the first timer. *)
Definition overlappingGestures : list Event :=
  gesture zigzag ++ gesture lopsided ++ [Timeout].

(** ** Presentation helpers *)

(** [Math.round]: the nearest integer, a tie going to the larger one. *)
Definition Math_round (a : R) : R := IZR (Int_part (a + / 2)).

(** [a >= b] on numbers. *)
Definition geq (a b : R) : bool :=
  if Rle_dec b a then true else false.

(** src/unnamed/part_000, [getStarRating].  The string literals are
    those of the source file, byte for byte. *)
Definition getStarRating (score : R) : String.string :=
  let roundedScore := Math_round score in
  if geq roundedScore 90 then "â­â­â­â­â­"%string
  else if geq roundedScore 75 then "â­â­â­â­â˜†"%string
  else if geq roundedScore 60 then "â­â­â­â˜†â˜†"%string
  else if geq roundedScore 40 then "â­â­â˜†â˜†â˜†"%string
  else if geq roundedScore 20 then "â­â˜†â˜†â˜†â˜†"%string
  else "â˜†â˜†â˜†â˜†â˜†"%string.

(** A row of five stars of which the first [k] are filled, written with
    the two star literals of [getStarRating]. *)
Definition starRow (k : nat) : String.string :=
  String.concat ""%string
    (repeat "â­"%string k ++ repeat "â˜†"%string (5 - k)).

(** The score thresholds of the star tiers, before rounding. *)
Definition tierThresholds : list R := [19.5; 39.5; 59.5; 74.5; 89.5].

(** The number of tier thresholds that [score] reaches. *)
Definition tiersReached (score : R) : nat :=
  length (filter (fun t => geq score t) tierThresholds).

(** [getCanvasCoordinates] (src/unnamed/part_000) and [getCoords]
    (src/App.tsx): [rect] is the bounding rectangle of the canvas, [None]
    when [canvasRef.current] is null. *)
Record DOMRect : Type := mkRect { left : R; top : R }.

Definition getCanvasCoordinates (rect : option DOMRect) (clientX clientY : R)
  : option Point :=
  match rect with
  | None => None
  | Some rect => Some {| x := clientX - left rect; y := clientY - top rect |}
  end.

(** The path that the start and move handlers accumulate from pointer
    samples given in client coordinates: each sample is converted by
    [getCanvasCoordinates] and appended when the conversion returns a
    point. *)
Definition sampled (rect : option DOMRect) (samples : list (R * R))
  : list Point :=
  flat_map (fun c =>
              match getCanvasCoordinates rect (fst c) (snd c) with
              | Some coords => [coords]
              | None => []
              end)
           samples.

(** [renderStatusMessage], as a function of the two state cells it
    reads.  The returned element is represented by its content: the
    prompt, the spinner, the score display with the percentage shown and
    the hue of its colour, or the empty placeholder. *)
Inductive StatusMessage : Type :=
| Prompt (text : String.string)
| Spinner
| ScoreDisplay (percent : R) (hue : R)
| Placeholder.

Definition renderStatusMessage (appState : AppState)
    (result : option AnalysisResult) : StatusMessage :=
  match appState with
  | IDLE => Prompt "Draw a perfect circle"%string
  | ANALYZING => Spinner
  | RESULT =>
      match result with
      | Some result => ScoreDisplay (Math_round (score result)) (score result)
      | None => Placeholder
      end
  | DRAWING => Placeholder
  end.

(** The drawing effect ([useEffect] on [points], [result], [appState]):
    the assignments to the canvas and the calls on its 2D context, in
    the order the effect makes them. *)
Inductive CanvasOp : Type :=
| SetCanvasWidth (w : R)
| SetCanvasHeight (h : R)
| Scale (sx sy : R)
| SetFillStyle (colour : String.string)
| FillRect (x0 y0 w h : R)
| SetStrokeStyle (colour : String.string)
| SetLineWidth (w : R)
| SetLineCap (cap : String.string)
| SetLineJoin (join : String.string)
| BeginPath
| MoveTo (px py : R)
| LineTo (px py : R)
| Stroke
| SetLineDash (segments : list R)
| Arc (cx cy r startAngle endAngle : R)
| Fill.

(** What the effect reads from the page when the canvas, its 2D context
    and its parent element all exist: the device pixel ratio, the size
    of the parent, and the value the canvas reports for a dimension that
    was assigned to it. *)
Record Surface : Type := mkSurface
  { devicePixelRatio : R;
    parentWidth : R;
    parentHeight : R;
    reportedDimension : R -> R }.

Definition drawEffect (surface : option Surface) (points : list Point)
    (result : option AnalysisResult) : list CanvasOp :=
  match surface with
  | None => []
  | Some sf =>
      let dpr :=
        if strictEq (devicePixelRatio sf) 0 then 1
        else devicePixelRatio sf in
      let width := reportedDimension sf (parentWidth sf * dpr) in
      let height := reportedDimension sf (parentHeight sf * dpr) in
      [ SetCanvasWidth (parentWidth sf * dpr);
        SetCanvasHeight (parentHeight sf * dpr);
        Scale dpr dpr;
        SetFillStyle "#1f2937"%string;
        FillRect 0 0 width height ]
      ++ (if (1 <? length points)%nat then
            [ SetStrokeStyle "#22d3ee"%string; SetLineWidth 5;
              SetLineCap "round"%string; SetLineJoin "round"%string;
              BeginPath;
              MoveTo (x (at_ points 0)) (y (at_ points 0)) ]
            ++ map (fun i => LineTo (x (at_ points i)) (y (at_ points i)))
                   (seq 1 (length points - 1))
            ++ [ Stroke ]
          else [])
      ++ match result with
         | Some result =>
             [ SetStrokeStyle "#4ade80"%string; SetLineWidth 3;
               SetLineDash [8; 8]; BeginPath;
               Arc (x (center result)) (y (center result)) (radius result)
                   0 (2 * PI);
               Stroke; SetLineDash [];
               SetFillStyle "#f87171"%string; BeginPath;
               Arc (x (center result)) (y (center result)) 5 0 (2 * PI);
               Fill ]
         | None => []
         end
  end.

(** The vertices of the polyline that a sequence of context calls
    traces, in order. *)
Fixpoint tracedVertices (ops : list CanvasOp) : list Point :=
  match ops with
  | [] => []
  | MoveTo px py :: rest => {| x := px; y := py |} :: tracedVertices rest
  | LineTo px py :: rest => {| x := px; y := py |} :: tracedVertices rest
  | _ :: rest => tracedVertices rest
  end.

(** The radii passed to [arc]. *)
Fixpoint arcRadii (ops : list CanvasOp) : list R :=
  match ops with
  | [] => []
  | Arc _ _ r _ _ :: rest => r :: arcRadii rest
  | _ :: rest => arcRadii rest
  end.

(** Scaling of a point, of a path and of a result by a factor [k] about
    the origin. *)
Definition scale (k : R) (p : Point) : Point :=
  {| x := k * x p; y := k * y p |}.

Definition scalePath (k : R) (path : list Point) : list Point :=
  map (scale k) path.

Definition scaleResult (k : R) (r : AnalysisResult) : AnalysisResult :=
  {| score := score r; center := scale k (center r);
     radius := Rabs k * radius r |}.

(** The linear map with matrix rows (a, b) and (c, d), on a point, on a
    path and on a result; [isometry] says the matrix is orthogonal (a
    rotation or a reflection). *)
Definition linear (a b c d : R) (p : Point) : Point :=
  {| x := a * x p + b * y p; y := c * x p + d * y p |}.

Definition linearPath (a b c d : R) (path : list Point) : list Point :=
  map (linear a b c d) path.

Definition linearResult (a b c d : R) (r : AnalysisResult)
  : AnalysisResult :=
  {| score := score r; center := linear a b c d (center r);
     radius := radius r |}.

Definition isometry (a b c d : R) : Prop :=
  a * a + c * c = 1 /\ b * b + d * d = 1 /\ a * b + c * d = 0.

(** ** What the states reached from the initial state satisfy *)

(** A stored result is null or the analysis of a path of at least ten
    points. *)
Definition analysed (result : option AnalysisResult) : Prop :=
  match result with
  | None => True
  | Some r =>
      exists path : list Point,
        (10 <= length path)%nat /\ analyzeCircle path = Some r
  end.

Definition windowInvariant (s : WindowListeners.Component) : Prop :=
  Forall (fun captured => (10 <= length captured)%nat)
         (WindowListeners.deferred s)
  /\ analysed (WindowListeners.result s)
  /\ (WindowListeners.appState s = DRAWING ->
      WindowListeners.listening s = true)
  /\ (WindowListeners.appState s = ANALYZING ->
      (10 <= length (WindowListeners.points s))%nat)
  /\ (WindowListeners.appState s = IDLE \/
      WindowListeners.appState s = DRAWING ->
      WindowListeners.result s = None).

Definition canvasInvariant (t : CanvasHandlers.Component) : Prop :=
  Forall (fun captured => (10 <= length captured)%nat)
         (CanvasHandlers.deferred t)
  /\ analysed (CanvasHandlers.result t)
  /\ (CanvasHandlers.appState t = ANALYZING ->
      (10 <= length (CanvasHandlers.points t))%nat)
  /\ (CanvasHandlers.appState t = IDLE -> CanvasHandlers.points t = [])
  /\ (CanvasHandlers.appState t <> RESULT ->
      CanvasHandlers.result t = None).

(** ** Sums, means and distances *)

Section Sums.

Context {A : Type}.
Variable f : A -> R.

Lemma fold_left_plus (l : list A) (a : R) :
  fold_left (fun sum r => sum + f r) l a = a + Spec.sum (map f l).
Proof.
  revert a; induction l as [|b l IH]; intros a; simpl.
  - ring.
  - rewrite IH; ring.
Qed.

Lemma sum_nonneg (l : list A) :
  (forall a, 0 <= f a) -> 0 <= Spec.sum (map f l).
Proof.
  intros Hf; induction l as [|b l IH]; simpl.
  - lra.
  - specialize (Hf b); lra.
Qed.

Lemma sum_zero_all_zero (l : list A) :
  (forall a, 0 <= f a) -> Spec.sum (map f l) = 0 ->
  Forall (fun a => f a = 0) l.
Proof.
  intros Hf; induction l as [|b l IH]; simpl; intros Hs.
  - constructor.
  - pose proof (Hf b) as Hb.
    pose proof (sum_nonneg l Hf) as Hl.
    constructor; [lra | apply IH; lra].
Qed.

Lemma all_zero_sum_zero (l : list A) :
  Forall (fun a => f a = 0) l -> Spec.sum (map f l) = 0.
Proof.
  induction 1 as [|b l Hb _ IH]; simpl; [reflexivity | lra].
Qed.

End Sums.

Lemma fold_left_sum (l : list R) (a : R) :
  fold_left (fun sum r => sum + r) l a = a + Spec.sum l.
Proof.
  rewrite (fold_left_plus (fun r => r)), map_id; reflexivity.
Qed.

Lemma centroid_fold (path : list Point) (acc : Point) :
  fold_left (fun acc p => {| x := x acc + x p; y := y acc + y p |})
            path acc
  = {| x := x acc + Spec.sum (map x path);
       y := y acc + Spec.sum (map y path) |}.
Proof.
  revert acc; induction path as [|p path IH]; intros [ax ay]; simpl.
  - f_equal; ring.
  - rewrite IH; simpl; f_equal; ring.
Qed.

Lemma centerX_mean (path : list Point) :
  centerX path = Spec.mean (map x path).
Proof.
  unfold centerX, centroid, Spec.mean.
  rewrite centroid_fold, length_map; simpl.
  f_equal; ring.
Qed.

Lemma centerY_mean (path : list Point) :
  centerY path = Spec.mean (map y path).
Proof.
  unfold centerY, centroid, Spec.mean.
  rewrite centroid_fold, length_map; simpl.
  f_equal; ring.
Qed.

Lemma centerOf_centroid (path : list Point) :
  centerOf path = Spec.centroid path.
Proof.
  unfold centerOf, Spec.centroid.
  rewrite centerX_mean, centerY_mean; reflexivity.
Qed.

Lemma hypot_nonneg (a b : R) : 0 <= Math.hypot a b.
Proof. apply sqrt_pos. Qed.

Lemma hypot_zero (a b : R) : Math.hypot a b = 0 <-> a = 0 /\ b = 0.
Proof.
  unfold Math.hypot; split.
  - intros H; apply sqrt_eq_0 in H; [| nra].
    split; nra.
  - intros [-> ->].
    replace (0 * 0 + 0 * 0) with 0 by ring; apply sqrt_0.
Qed.

Lemma hypot_of_square (a b r : R) :
  0 <= r -> a * a + b * b = r * r -> Math.hypot a b = r.
Proof.
  intros Hr H; unfold Math.hypot; rewrite H.
  apply sqrt_square; assumption.
Qed.

Lemma hypot_square (a b : R) :
  Math.hypot a b * Math.hypot a b = a * a + b * b.
Proof. unfold Math.hypot; apply sqrt_sqrt; nra. Qed.

Lemma hypot_distance (p q : Point) :
  Math.hypot (x p - x q) (y p - y q) = Spec.distance p q.
Proof. reflexivity. Qed.

Lemma distance_sym (p q : Point) : Spec.distance p q = Spec.distance q p.
Proof.
  unfold Spec.distance; f_equal.
  rewrite (Rsqr_neg_minus (x p)), (Rsqr_neg_minus (y p)); reflexivity.
Qed.

Lemma radii_distances (path : list Point) :
  radii path = Spec.radialDistances path.
Proof.
  unfold radii, Spec.radialDistances.
  apply map_ext; intros p.
  rewrite <- hypot_distance; unfold Spec.centroid; simpl.
  rewrite centerX_mean, centerY_mean; reflexivity.
Qed.

Lemma radii_length (path : list Point) :
  length (radii path) = length path.
Proof. unfold radii; apply length_map. Qed.

Lemma meanRadius_mean (path : list Point) :
  meanRadius path = Spec.meanRadius path.
Proof.
  unfold meanRadius, Spec.meanRadius, Spec.mean.
  rewrite fold_left_sum, radii_distances; f_equal; ring.
Qed.

Lemma variance_population (path : list Point) :
  variance path = Spec.populationVariance (Spec.radialDistances path).
Proof.
  unfold variance, Spec.populationVariance.
  rewrite (fold_left_plus (fun r => Math.pow (r - meanRadius path) 2)).
  rewrite meanRadius_mean, radii_distances.
  unfold Spec.mean at 1, Spec.meanRadius.
  rewrite length_map; f_equal.
  rewrite Rplus_0_l; f_equal.
  apply map_ext; intros r; unfold Math.pow, Rsqr; ring.
Qed.

Lemma at_zero_hd (path : list Point) :
  startPoint path = hd Spec.origin path.
Proof. destruct path; reflexivity. Qed.

Lemma at_last (path : list Point) :
  endPoint path = last path Spec.origin.
Proof.
  unfold endPoint, at_.
  induction path as [|p [|q path] IH]; try reflexivity.
  simpl in *; rewrite Nat.sub_0_r in IH; exact IH.
Qed.

Lemma closingDistance_distance (path : list Point) :
  closingDistance path = Spec.closingDistance path.
Proof.
  unfold closingDistance, Spec.closingDistance.
  rewrite hypot_distance, at_zero_hd, at_last.
  apply distance_sym.
Qed.

Lemma finalScore_spec (path : list Point) :
  finalScore path = Spec.score path.
Proof.
  unfold finalScore, scoreFromShape, closingPenalty, normalizedDeviation,
    stdDev, Spec.score, Spec.stdDev, Math.max, Math.min, Math.sqrt.
  rewrite closingDistance_distance, variance_population, meanRadius_mean.
  do 3 f_equal; ring.
Qed.

Lemma strictEq_true (a b : R) : strictEq a b = true <-> a = b.
Proof.
  unfold strictEq; destruct (Req_dec_T a b); split;
    intros; congruence.
Qed.

Lemma strictEq_false (a b : R) : strictEq a b = false <-> a <> b.
Proof.
  unfold strictEq; destruct (Req_dec_T a b); split;
    intros; congruence.
Qed.

Lemma analyzeCircle_value (path : list Point) :
  (10 <= length path)%nat -> meanRadius path <> 0 ->
  analyzeCircle path
  = Some {| score := finalScore path; center := centerOf path;
            radius := meanRadius path |}.
Proof.
  intros Hlen Hr; unfold analyzeCircle.
  apply Nat.ltb_ge in Hlen; rewrite Hlen.
  apply strictEq_false in Hr; rewrite Hr; reflexivity.
Qed.

(** ** Signs and bounds of the intermediate values *)

Lemma length_pos (path : list Point) :
  (1 <= length path)%nat -> 0 < INR (length path).
Proof. intros H; apply lt_0_INR; lia. Qed.

Lemma radii_sum_nonneg (path : list Point) : 0 <= Spec.sum (radii path).
Proof. unfold radii; apply sum_nonneg; intros p; apply hypot_nonneg. Qed.

Lemma meanRadius_nonneg (path : list Point) : 0 <= meanRadius path.
Proof.
  unfold meanRadius; rewrite fold_left_sum, Rplus_0_l, radii_length.
  destruct path as [|p path].
  - simpl; unfold Rdiv; rewrite Rmult_0_l; lra.
  - apply Rmult_le_pos; [apply radii_sum_nonneg |].
    apply Rlt_le, Rinv_0_lt_compat, length_pos; simpl; lia.
Qed.

Lemma meanRadius_pos (path : list Point) :
  meanRadius path <> 0 -> 0 < meanRadius path.
Proof. pose proof (meanRadius_nonneg path); lra. Qed.

Lemma meanRadius_zero_iff (path : list Point) :
  meanRadius path = 0 <-> Forall (fun p => p = centerOf path) path.
Proof.
  unfold meanRadius; rewrite fold_left_sum, Rplus_0_l, radii_length.
  unfold radii.
  assert (Hpt : forall p : Point,
             Math.hypot (x p - centerX path) (y p - centerY path) = 0
             <-> p = centerOf path).
  { intros [px py]; simpl; rewrite hypot_zero; unfold centerOf; split.
    - intros [Hx Hy]; f_equal; lra.
    - intros H; injection H as -> ->; lra. }
  destruct path as [|q path].
  - simpl; unfold Rdiv; rewrite Rmult_0_l; split; [constructor | reflexivity].
  - set (l := q :: path) in *.
    assert (Hn : 0 < INR (length l)) by (apply length_pos; simpl; lia).
    split.
    + intros H.
      assert (Hs : Spec.sum
                (map (fun p => Math.hypot (x p - centerX l) (y p - centerY l))
                     l) = 0).
      { apply Rmult_integral in H; destruct H as [H | H]; [exact H |].
        pose proof (Rinv_0_lt_compat _ Hn); lra. }
      apply sum_zero_all_zero in Hs; [| intros p; apply hypot_nonneg].
      eapply Forall_impl; [| exact Hs].
      intros p Hp; apply Hpt; exact Hp.
    + intros H.
      rewrite all_zero_sum_zero.
      * unfold Rdiv; apply Rmult_0_l.
      * eapply Forall_impl; [| exact H].
        intros p Hp; apply Hpt; exact Hp.
Qed.

Lemma variance_nonneg (path : list Point) : 0 <= variance path.
Proof.
  unfold variance.
  rewrite (fold_left_plus (fun r => Math.pow (r - meanRadius path) 2)).
  rewrite Rplus_0_l, radii_length.
  assert (Hs : 0 <= Spec.sum
                 (map (fun r => Math.pow (r - meanRadius path) 2)
                      (radii path))).
  { apply sum_nonneg; intros r; unfold Math.pow; apply pow2_ge_0. }
  destruct path as [|p path].
  - simpl; unfold Rdiv; rewrite Rmult_0_l; lra.
  - apply Rmult_le_pos; [exact Hs |].
    apply Rlt_le, Rinv_0_lt_compat, length_pos; simpl; lia.
Qed.

Lemma stdDev_nonneg (path : list Point) : 0 <= stdDev path.
Proof. apply sqrt_pos. Qed.

Lemma normalizedDeviation_nonneg (path : list Point) :
  meanRadius path <> 0 -> 0 <= normalizedDeviation path.
Proof.
  intros H; unfold normalizedDeviation.
  apply Rmult_le_pos; [apply stdDev_nonneg |].
  apply Rlt_le, Rinv_0_lt_compat, meanRadius_pos, H.
Qed.

Lemma scoreFromShape_bounds (path : list Point) :
  meanRadius path <> 0 -> 0 <= scoreFromShape path <= 100.
Proof.
  intros H; pose proof (normalizedDeviation_nonneg path H).
  unfold scoreFromShape, Math.max; split.
  - apply Rmax_l.
  - apply Rmax_lub; lra.
Qed.

Lemma closingDistance_nonneg (path : list Point) :
  0 <= closingDistance path.
Proof. apply hypot_nonneg. Qed.

Lemma closingPenalty_bounds (path : list Point) :
  meanRadius path <> 0 -> 0 <= closingPenalty path <= 25.
Proof.
  intros H; unfold closingPenalty, Math.min.
  assert (Hq : 0 <= closingDistance path / meanRadius path).
  { apply Rmult_le_pos; [apply closingDistance_nonneg |].
    apply Rlt_le, Rinv_0_lt_compat, meanRadius_pos, H. }
  pose proof (Rmin_l 1 (closingDistance path / meanRadius path)).
  assert (0 <= Rmin 1 (closingDistance path / meanRadius path))
    by (apply Rmin_glb; lra).
  lra.
Qed.

Lemma finalScore_bounds (path : list Point) :
  meanRadius path <> 0 -> 0 <= finalScore path <= 100.
Proof.
  intros H.
  pose proof (scoreFromShape_bounds path H).
  pose proof (closingPenalty_bounds path H).
  unfold finalScore, Math.max; split.
  - apply Rmax_l.
  - apply Rmax_lub; lra.
Qed.

Lemma analyzeCircle_some (path : list Point) (r : AnalysisResult) :
  analyzeCircle path = Some r ->
  (10 <= length path)%nat /\ meanRadius path <> 0 /\
  r = {| score := finalScore path; center := centerOf path;
         radius := meanRadius path |}.
Proof.
  unfold analyzeCircle.
  destruct (length path <? 10)%nat eqn:Hlen; [discriminate |].
  destruct (strictEq (meanRadius path) 0) eqn:Hr; [discriminate |].
  intros H; injection H as <-.
  apply Nat.ltb_ge in Hlen; apply strictEq_false in Hr; auto.
Qed.

Lemma analyzeCircle_none (path : list Point) :
  analyzeCircle path = None <->
  (length path < 10)%nat \/ meanRadius path = 0.
Proof.
  unfold analyzeCircle.
  destruct (length path <? 10)%nat eqn:Hlen.
  - apply Nat.ltb_lt in Hlen; tauto.
  - apply Nat.ltb_ge in Hlen.
    destruct (strictEq (meanRadius path) 0) eqn:Hr.
    + apply strictEq_true in Hr; tauto.
    + apply strictEq_false in Hr; split; [discriminate |].
      intros [H | H]; [lia | contradiction].
Qed.

(** ** The sample paths evaluated *)

Lemma INR_10 : INR 10 = 10.
Proof. simpl; lra. Qed.

Lemma zigzag_centerX : centerX zigzag = 0.
Proof.
  unfold centerX, centroid, zigzag; simpl fold_left; simpl length.
  rewrite INR_10; simpl; lra.
Qed.

Lemma zigzag_centerY : centerY zigzag = 0.
Proof.
  unfold centerY, centroid, zigzag; simpl fold_left; simpl length.
  rewrite INR_10; simpl; lra.
Qed.

Lemma zigzag_radii : radii zigzag = repeat 1 10.
Proof.
  unfold radii; rewrite zigzag_centerX, zigzag_centerY.
  unfold zigzag; simpl.
  rewrite !(hypot_of_square _ _ 1) by lra; reflexivity.
Qed.

Lemma zigzag_meanRadius : meanRadius zigzag = 1.
Proof.
  unfold meanRadius; rewrite zigzag_radii.
  simpl fold_left; simpl length; rewrite INR_10; lra.
Qed.

Lemma zigzag_analysis :
  analyzeCircle zigzag
  = Some {| score := finalScore zigzag; center := centerOf zigzag;
            radius := meanRadius zigzag |}.
Proof.
  apply analyzeCircle_value; [simpl; lia |].
  rewrite zigzag_meanRadius; lra.
Qed.

Lemma zigzag_closingDistance : closingDistance zigzag = 2.
Proof.
  unfold closingDistance, zigzag; simpl.
  apply hypot_of_square; lra.
Qed.

Lemma zigzag_variance : variance zigzag = 0.
Proof.
  unfold variance; rewrite zigzag_radii, zigzag_meanRadius.
  unfold Math.pow; simpl fold_left; simpl length; rewrite INR_10; lra.
Qed.

Lemma zigzag_stdDev : stdDev zigzag = 0.
Proof.
  unfold stdDev, Math.sqrt; rewrite zigzag_variance; apply sqrt_0.
Qed.

Lemma lopsided_centerX : centerX lopsided = 0.
Proof.
  unfold centerX, centroid, lopsided; simpl fold_left; simpl length.
  rewrite INR_10; simpl; lra.
Qed.

Lemma lopsided_centerY : centerY lopsided = 0.
Proof.
  unfold centerY, centroid, lopsided; simpl fold_left; simpl length.
  rewrite INR_10; simpl; lra.
Qed.

Lemma lopsided_radii : radii lopsided = [1; 2; 2; 2; 2; 0; 0; 0; 0; 1].
Proof.
  unfold radii; rewrite lopsided_centerX, lopsided_centerY.
  unfold lopsided; simpl.
  repeat (apply (f_equal2 (@cons R)); [apply hypot_of_square; lra |]).
  reflexivity.
Qed.

Lemma lopsided_meanRadius : meanRadius lopsided = 1.
Proof.
  unfold meanRadius; rewrite lopsided_radii.
  simpl fold_left; simpl length; rewrite INR_10; lra.
Qed.

Lemma lopsided_closingDistance : closingDistance lopsided = 2.
Proof.
  unfold closingDistance, lopsided; simpl.
  apply hypot_of_square; lra.
Qed.

Lemma lopsided_analysis :
  analyzeCircle lopsided
  = Some {| score := finalScore lopsided; center := centerOf lopsided;
            radius := meanRadius lopsided |}.
Proof.
  apply analyzeCircle_value; [simpl; lia |].
  rewrite lopsided_meanRadius; lra.
Qed.

Lemma sqrt3_square : sqrt 3 * sqrt 3 = 3.
Proof. apply sqrt_sqrt; lra. Qed.

Lemma dwellArc_centerX : centerX dwellArc = 19 / 10.
Proof.
  unfold centerX, centroid, dwellArc; simpl fold_left; simpl length.
  rewrite INR_10; simpl; lra.
Qed.

Lemma dwellArc_centerY : centerY dwellArc = sqrt 3 / 10.
Proof.
  unfold centerY, centroid, dwellArc; simpl fold_left; simpl length.
  rewrite INR_10; simpl; lra.
Qed.

Lemma dwellArc_radii : radii dwellArc = repeat (1 / 5) 9 ++ [9 / 5].
Proof.
  unfold radii; rewrite dwellArc_centerX, dwellArc_centerY.
  unfold dwellArc; simpl.
  pose proof sqrt3_square as H3.
  repeat (apply (f_equal2 (@cons R));
          [apply hypot_of_square; [lra | nra] |]).
  reflexivity.
Qed.

Lemma dwellArc_meanRadius : meanRadius dwellArc = 9 / 25.
Proof.
  unfold meanRadius; rewrite dwellArc_radii.
  simpl fold_left; simpl length; rewrite INR_10; lra.
Qed.

Lemma dwellArc_variance : variance dwellArc = 12 / 25 * (12 / 25).
Proof.
  unfold variance; rewrite dwellArc_radii, dwellArc_meanRadius.
  unfold Math.pow; simpl fold_left; simpl length; rewrite INR_10; lra.
Qed.

Lemma dwellArc_scoreFromShape : scoreFromShape dwellArc = 0.
Proof.
  unfold scoreFromShape, normalizedDeviation, stdDev, Math.sqrt, Math.max.
  rewrite dwellArc_variance, dwellArc_meanRadius, sqrt_square by lra.
  apply Rmax_left; lra.
Qed.

Lemma dwellArc_closingDistance : closingDistance dwellArc = 2.
Proof.
  unfold closingDistance, dwellArc; simpl.
  pose proof sqrt3_square as H3.
  apply hypot_of_square; [lra | nra].
Qed.

Lemma dwellArc_onCircle : onCircle {| x := 0; y := 0 |} 2 dwellArc.
Proof.
  pose proof sqrt3_square as H3.
  unfold onCircle, dwellArc; simpl.
  repeat (constructor; [apply hypot_of_square; [lra | simpl; nra] |]).
  constructor.
Qed.

Lemma dwellArc_analysis :
  analyzeCircle dwellArc
  = Some {| score := finalScore dwellArc; center := centerOf dwellArc;
            radius := meanRadius dwellArc |}.
Proof.
  apply analyzeCircle_value; [simpl; lia |].
  rewrite dwellArc_meanRadius; lra.
Qed.

Lemma dwellArc_finalScore : finalScore dwellArc = 0.
Proof.
  unfold finalScore, Math.max.
  rewrite dwellArc_scoreFromShape.
  pose proof (closingPenalty_bounds dwellArc) as H.
  rewrite dwellArc_meanRadius in H.
  apply Rmax_left; lra.
Qed.

(** ** The scoring engine *)

(** C1.  For a path of at least ten points whose mean radius is not
    zero, [analyzeCircle] returns a result, not null: its center is the
    arithmetic mean of the x and of the y coordinates, its radius is the
    arithmetic mean of the Euclidean distances of the points from that
    center, and its score is
    max(0, max(0, (1 - 3 * (stdDev / meanRadius)) * 100)
           - min(1, closingDistance / meanRadius) * 25),
    with stdDev the square root of the population variance of the radii
    and closingDistance the distance between the first and the last
    point. *)
Theorem analyzeCircle_matches_spec (path : list Point) :
  (10 <= length path)%nat ->
  Spec.meanRadius path <> 0 ->
  analyzeCircle path
  = Some {| score := Spec.score path;
            center := Spec.centroid path;
            radius := Spec.meanRadius path |}.
Proof.
  intros Hlen Hr.
  rewrite <- meanRadius_mean in Hr.
  rewrite (analyzeCircle_value path Hlen Hr).
  rewrite finalScore_spec, centerOf_centroid, meanRadius_mean.
  reflexivity.
Qed.

Lemma analyzeCircle_matches_spec_witness :
  (10 <= length zigzag)%nat /\
  Spec.meanRadius zigzag <> 0 /\
  analyzeCircle zigzag
  = Some {| score := Spec.score zigzag;
            center := Spec.centroid zigzag;
            radius := Spec.meanRadius zigzag |}.
Proof.
  assert (Hlen : (10 <= length zigzag)%nat) by (simpl; lia).
  assert (Hr : Spec.meanRadius zigzag <> 0)
    by (rewrite <- meanRadius_mean, zigzag_meanRadius; lra).
  split; [exact Hlen | split; [exact Hr |]].
  exact (analyzeCircle_matches_spec zigzag Hlen Hr).
Defined.

(** In exact real arithmetic [analyzeCircle] returns null exactly when
    the path has fewer than ten points or the mean distance of its
    points from their centroid is zero, and that mean is zero exactly
    when every point coincides with the centroid.  On binary64 numbers
    the second part fails: see [identical_points_are_scored]. *)
Theorem analyzeCircle_null_iff (path : list Point) :
  (analyzeCircle path = None <->
   (length path < 10)%nat \/ Spec.meanRadius path = 0)
  /\
  (Spec.meanRadius path = 0 <->
   Forall (fun p => p = Spec.centroid path) path).
Proof.
  rewrite <- meanRadius_mean, <- centerOf_centroid; split.
  - apply analyzeCircle_none.
  - apply meanRadius_zero_iff.
Qed.

(** C3.  The score of every result that [analyzeCircle] returns lies in
    the closed interval [0, 100]. *)
Theorem score_in_range (path : list Point) (r : AnalysisResult) :
  analyzeCircle path = Some r -> 0 <= score r <= 100.
Proof.
  intros H; apply analyzeCircle_some in H.
  destruct H as (_ & Hr & ->); simpl.
  apply finalScore_bounds, Hr.
Qed.

Lemma score_in_range_witness :
  analyzeCircle zigzag
  = Some {| score := finalScore zigzag; center := centerOf zigzag;
            radius := meanRadius zigzag |}
  /\ 0 <= finalScore zigzag <= 100.
Proof.
  split; [exact zigzag_analysis |].
  exact (score_in_range zigzag _ zigzag_analysis).
Defined.

(** C9.  Of two scored paths with the same mean radius and the same
    closing distance, the one whose normalized deviation
    (stdDev / meanRadius) is larger never has the strictly larger
    score. *)
Theorem score_monotone_in_deviation
    (p1 p2 : list Point) (r1 r2 : AnalysisResult) :
  analyzeCircle p1 = Some r1 ->
  analyzeCircle p2 = Some r2 ->
  Spec.meanRadius p1 = Spec.meanRadius p2 ->
  Spec.closingDistance p1 = Spec.closingDistance p2 ->
  Spec.stdDev p1 / Spec.meanRadius p1
    <= Spec.stdDev p2 / Spec.meanRadius p2 ->
  score r2 <= score r1.
Proof.
  intros H1 H2 Hm Hc Hd.
  apply analyzeCircle_some in H1; destruct H1 as (_ & _ & ->).
  apply analyzeCircle_some in H2; destruct H2 as (_ & _ & ->).
  simpl; rewrite !finalScore_spec; unfold Spec.score.
  rewrite <- Hm, <- Hc.
  apply Rle_max_compat_l.
  apply Rplus_le_compat_r.
  apply Rle_max_compat_l.
  rewrite <- Hm in Hd; lra.
Qed.

Lemma score_monotone_in_deviation_witness :
  Spec.meanRadius zigzag = Spec.meanRadius lopsided /\
  Spec.closingDistance zigzag = Spec.closingDistance lopsided /\
  Spec.stdDev zigzag / Spec.meanRadius zigzag
    <= Spec.stdDev lopsided / Spec.meanRadius lopsided /\
  finalScore lopsided <= finalScore zigzag.
Proof.
  assert (Hm : Spec.meanRadius zigzag = Spec.meanRadius lopsided).
  { rewrite <- !meanRadius_mean, zigzag_meanRadius, lopsided_meanRadius.
    reflexivity. }
  assert (Hc : Spec.closingDistance zigzag = Spec.closingDistance lopsided).
  { rewrite <- !closingDistance_distance, zigzag_closingDistance,
      lopsided_closingDistance.
    reflexivity. }
  assert (Hd : Spec.stdDev zigzag / Spec.meanRadius zigzag
               <= Spec.stdDev lopsided / Spec.meanRadius lopsided).
  { rewrite <- !meanRadius_mean, zigzag_meanRadius, lopsided_meanRadius.
    unfold Spec.stdDev at 1.
    rewrite <- variance_population, zigzag_variance, sqrt_0.
    pose proof (sqrt_pos
                  (Spec.populationVariance (Spec.radialDistances lopsided))).
    unfold Spec.stdDev; lra. }
  repeat split; try assumption.
  exact (score_monotone_in_deviation zigzag lopsided _ _
           zigzag_analysis lopsided_analysis Hm Hc Hd).
Defined.

(** ** Translation of the path *)

Section Translation.

Variables dx dy : R.
Variable path : list Point.
Hypothesis nonempty : (1 <= length path)%nat.

Abbreviation moved := (translatePath dx dy path).

Lemma sum_map_shift {A : Type} (f : A -> R) (d : R) (l : list A) :
  Spec.sum (map (fun a => f a + d) l)
  = Spec.sum (map f l) + INR (length l) * d.
Proof.
  induction l as [|a l IH].
  - simpl; ring.
  - change (length (a :: l)) with (S (length l)).
    rewrite S_INR; simpl; rewrite IH; ring.
Qed.

Lemma translate_length : length moved = length path.
Proof. apply length_map. Qed.

Lemma translate_centerX : centerX moved = centerX path + dx.
Proof.
  rewrite !centerX_mean; unfold Spec.mean, translatePath.
  rewrite !length_map, map_map; simpl.
  rewrite (sum_map_shift x dx path).
  pose proof (length_pos path nonempty); field; lra.
Qed.

Lemma translate_centerY : centerY moved = centerY path + dy.
Proof.
  rewrite !centerY_mean; unfold Spec.mean, translatePath.
  rewrite !length_map, map_map; simpl.
  rewrite (sum_map_shift y dy path).
  pose proof (length_pos path nonempty); field; lra.
Qed.

Lemma translate_centerOf : centerOf moved = translate dx dy (centerOf path).
Proof.
  unfold centerOf, translate; simpl.
  rewrite translate_centerX, translate_centerY; reflexivity.
Qed.

Lemma translate_radii : radii moved = radii path.
Proof.
  unfold radii; rewrite translate_centerX, translate_centerY.
  unfold translatePath; rewrite map_map.
  apply map_ext; intros p; simpl; f_equal; ring.
Qed.

Lemma translate_meanRadius : meanRadius moved = meanRadius path.
Proof. unfold meanRadius; rewrite translate_radii; reflexivity. Qed.

Lemma translate_variance : variance moved = variance path.
Proof.
  unfold variance; rewrite translate_radii, translate_meanRadius.
  reflexivity.
Qed.

Lemma translate_scoreFromShape :
  scoreFromShape moved = scoreFromShape path.
Proof.
  unfold scoreFromShape, normalizedDeviation, stdDev.
  rewrite translate_variance, translate_meanRadius; reflexivity.
Qed.

Lemma translate_at (i : nat) :
  (i < length path)%nat -> at_ moved i = translate dx dy (at_ path i).
Proof.
  intros Hi; unfold at_, translatePath.
  rewrite (nth_indep _ _ (translate dx dy {| x := 0; y := 0 |}))
    by (rewrite length_map; exact Hi).
  apply map_nth.
Qed.

Lemma translate_closingDistance :
  closingDistance moved = closingDistance path.
Proof.
  unfold closingDistance, startPoint, endPoint.
  rewrite translate_length, !translate_at by lia.
  simpl; f_equal; ring.
Qed.

Lemma translate_finalScore : finalScore moved = finalScore path.
Proof.
  unfold finalScore, closingPenalty.
  rewrite translate_scoreFromShape, translate_closingDistance,
    translate_meanRadius.
  reflexivity.
Qed.

End Translation.

(** C4, amended.  In exact real arithmetic, translating every point of
    a path by (dx, dy) translates the returned center by (dx, dy) and
    leaves the returned score and radius unchanged; the result for the
    translated path is null exactly when it is null for the original.
    On binary64 numbers the equalities fail:
    see [translation_binary64_counterexample]. *)
Theorem analyzeCircle_translation (dx dy : R) (path : list Point) :
  analyzeCircle (translatePath dx dy path)
  = option_map (translateResult dx dy) (analyzeCircle path).
Proof.
  unfold analyzeCircle.
  rewrite translate_length.
  destruct (length path <? 10)%nat eqn:Hlen; [reflexivity |].
  apply Nat.ltb_ge in Hlen.
  assert (Hne : (1 <= length path)%nat) by lia.
  rewrite (translate_meanRadius dx dy path Hne).
  destruct (strictEq (meanRadius path) 0); [reflexivity |].
  simpl; unfold translateResult; simpl.
  rewrite (translate_finalScore dx dy path Hne),
    (translate_centerOf dx dy path Hne).
  reflexivity.
Qed.

(** ** Guarded evaluation *)

Lemma divide_nonzero (a b : R) : b <> 0 -> divide a b = Ok (a / b).
Proof.
  intros H; unfold divide.
  apply strictEq_false in H; rewrite H; reflexivity.
Qed.

Lemma index_in_range (path : list Point) (i : nat) :
  (i < length path)%nat -> index path i = Ok (at_ path i).
Proof.
  intros H; unfold index, at_.
  rewrite (nth_error_nth' path {| x := 0; y := 0 |} H); reflexivity.
Qed.

Lemma analyzeCircle_guarded_value (path : list Point) :
  analyzeCircle_guarded path = Ok (analyzeCircle path).
Proof.
  unfold analyzeCircle_guarded, analyzeCircle.
  destruct (length path <? 10)%nat eqn:Hlen; [reflexivity |].
  apply Nat.ltb_ge in Hlen.
  assert (Hn : INR (length path) <> 0).
  { pose proof (length_pos path ltac:(lia)); lra. }
  rewrite !(divide_nonzero _ _ Hn); cbn [bind].
  rewrite length_map, (divide_nonzero _ _ Hn); cbn [bind].
  fold (centroid path); fold (centerX path); fold (centerY path).
  fold (radii path).
  replace (fold_left (fun sum r => sum + r) (radii path) 0
           / INR (length path))
    with (meanRadius path)
    by (unfold meanRadius; rewrite radii_length; reflexivity).
  destruct (strictEq (meanRadius path) 0) eqn:Hr; [reflexivity |].
  apply strictEq_false in Hr.
  rewrite (divide_nonzero _ _ Hn); cbn [bind].
  rewrite !(divide_nonzero _ _ Hr); cbn [bind].
  rewrite !index_in_range by lia; cbn [bind].
  rewrite (divide_nonzero _ _ Hr); cbn [bind].
  unfold finalScore, scoreFromShape, closingPenalty, closingDistance,
    normalizedDeviation, stdDev, variance, startPoint, endPoint, centerOf.
  rewrite radii_length; reflexivity.
Qed.

(** C10.  [analyzeCircle] is total: in the guarded evaluation no read
    of [path[0]] or [path[path.length - 1]] is outside the path and no
    divisor is zero, whatever the path; the evaluation ends with the
    value of [analyzeCircle], which is null or a result with a score in
    [0, 100] and a positive radius. *)
Theorem analyzeCircle_total (path : list Point) :
  analyzeCircle_guarded path = Ok (analyzeCircle path)
  /\ match analyzeCircle path with
     | None => True
     | Some r => wellFormed r
     end.
Proof.
  split; [apply analyzeCircle_guarded_value |].
  destruct (analyzeCircle path) as [r|] eqn:H; [| exact I].
  apply analyzeCircle_some in H; destruct H as (_ & Hr & ->).
  split; simpl.
  - apply finalScore_bounds, Hr.
  - apply meanRadius_pos, Hr.
Qed.

(** ** Paths on a circle *)

Lemma sum_map_le {A : Type} (f g : A -> R) (l : list A) :
  Forall (fun a => f a <= g a) l ->
  Spec.sum (map f l) <= Spec.sum (map g l).
Proof. induction 1 as [|a l Ha _ IH]; simpl; lra. Qed.

Lemma sum_map_scale {A : Type} (f : A -> R) (k : R) (l : list A) :
  Spec.sum (map (fun a => k * f a) l) = k * Spec.sum (map f l).
Proof. induction l as [|a l IH]; simpl; [| rewrite IH]; ring. Qed.

Lemma sum_map_affine (a b k : R) (l : list Point) :
  Spec.sum (map (fun p => a * x p + b * y p + k) l)
  = a * Spec.sum (map x l) + b * Spec.sum (map y l) + INR (length l) * k.
Proof.
  induction l as [|p l IH].
  - simpl; ring.
  - change (length (p :: l)) with (S (length l)).
    rewrite S_INR; simpl; rewrite IH; ring.
Qed.

Lemma sum_coordinates (path : list Point) :
  (1 <= length path)%nat ->
  Spec.sum (map x path) = INR (length path) * centerX path /\
  Spec.sum (map y path) = INR (length path) * centerY path.
Proof.
  intros Hn; pose proof (length_pos path Hn).
  rewrite centerX_mean, centerY_mean; unfold Spec.mean.
  rewrite !length_map; split; field; lra.
Qed.

(** The mean distance from the centroid of points on a circle is at most
    the radius of the circle. *)
Lemma onCircle_meanRadius_le (c : Point) (rad : R) (path : list Point) :
  0 < rad -> (1 <= length path)%nat -> onCircle c rad path ->
  meanRadius path <= rad.
Proof.
  intros Hrad Hn Hon.
  pose proof (length_pos path Hn) as Hlen.
  destruct (sum_coordinates path Hn) as [Hsx Hsy].
  set (n := INR (length path)) in *.
  set (cx := centerX path) in *; set (cy := centerY path) in *.
  destruct c as [ox oy]; simpl in Hon.
  set (a := 2 * (ox - cx)); set (b := 2 * (oy - cy)).
  set (k := cx * cx - ox * ox + (cy * cy - oy * oy) + 2 * (rad * rad)).
  assert (Hpt : Forall
            (fun p => 2 * rad * Math.hypot (x p - cx) (y p - cy)
                      <= a * x p + b * y p + k) path).
  { eapply Forall_impl; [| exact Hon].
    intros [px py]; simpl; intros Hp.
    pose proof (hypot_square (px - ox) (py - oy)) as Hc.
    rewrite Hp in Hc.
    pose proof (hypot_square (px - cx) (py - cy)) as Hh.
    set (h := Math.hypot (px - cx) (py - cy)) in *.
    pose proof (Rle_0_sqr (h - rad)) as Hsq; unfold Rsqr in Hsq.
    unfold a, b, k; clearbody h; clear Hp Hon Hsx Hsy; nra. }
  apply sum_map_le in Hpt.
  rewrite (sum_map_scale (fun p => Math.hypot (x p - cx) (y p - cy))),
    sum_map_affine, Hsx, Hsy in Hpt.
  fold n in Hpt.
  assert (Hsum : Spec.sum (radii path) <= n * rad).
  { unfold radii; fold cx cy.
    set (S := Spec.sum
                (map (fun p => Math.hypot (x p - cx) (y p - cy)) path)) in *.
    assert (HD : 0 <= (cx - ox) * (cx - ox) + (cy - oy) * (cy - oy)).
    { pose proof (Rle_0_sqr (cx - ox)) as H1.
      pose proof (Rle_0_sqr (cy - oy)) as H2.
      unfold Rsqr in H1, H2; lra. }
    assert (H2 : 2 * rad * S <= 2 * rad * (n * rad)).
    { apply Rle_trans with (1 := Hpt); unfold a, b, k.
      assert (0 <= n * ((cx - ox) * (cx - ox) + (cy - oy) * (cy - oy)))
        by (apply Rmult_le_pos; lra).
      nra. }
    apply Rmult_le_reg_l with (r := 2 * rad); lra. }
  unfold meanRadius; rewrite fold_left_sum, Rplus_0_l, radii_length.
  fold n; apply Rmult_le_reg_r with (r := n); [exact Hlen |].
  unfold Rdiv; rewrite Rmult_assoc, Rinv_l by lra; lra.
Qed.

Lemma closingPenalty_saturated (path : list Point) :
  meanRadius path <> 0 -> meanRadius path <= closingDistance path ->
  closingPenalty path = 25.
Proof.
  intros Hr Hle; pose proof (meanRadius_pos path Hr) as Hpos.
  unfold closingPenalty, Math.min.
  rewrite Rmin_left; [ring |].
  apply Rmult_le_reg_r with (r := meanRadius path); [exact Hpos |].
  unfold Rdiv; rewrite Rmult_assoc, Rinv_l by lra; lra.
Qed.

(** ** The closing penalty on a circle *)

(** C8, as stated, fails on [dwellArc]: its samples are on the circle
    of radius 2 about the origin and its first and last sample are 2
    apart, the shape score is 0, and the final score is 0, not
    0 - 25. *)
Lemma closing_gap_counterexample :
  onCircle {| x := 0; y := 0 |} 2 dwellArc /\
  closingDistance dwellArc = 2 /\
  scoreFromShape dwellArc = 0 /\
  exists r : AnalysisResult,
    analyzeCircle dwellArc = Some r /\ score r = 0 /\
    score r <> scoreFromShape dwellArc - 25.
Proof.
  split; [exact dwellArc_onCircle |].
  split; [exact dwellArc_closingDistance |].
  split; [exact dwellArc_scoreFromShape |].
  eexists; split; [exact dwellArc_analysis |]; simpl.
  rewrite dwellArc_finalScore, dwellArc_scoreFromShape; split; lra.
Qed.

(** C8, amended.  For a scored path whose points all lie on a circle of
    radius rad > 0 and whose first and last point are exactly rad apart,
    the closing penalty is exactly 25 and the final score is
    max(0, shapeScore - 25). *)
Theorem closing_gap_of_one_radius
    (c : Point) (rad : R) (path : list Point) (r : AnalysisResult) :
  0 < rad ->
  onCircle c rad path ->
  closingDistance path = rad ->
  analyzeCircle path = Some r ->
  closingPenalty path = 25
  /\ score r = Math.max 0 (scoreFromShape path - 25).
Proof.
  intros Hrad Hon Hgap Hres.
  apply analyzeCircle_some in Hres; destruct Hres as (Hlen & Hr & ->).
  assert (Hp : closingPenalty path = 25).
  { apply closingPenalty_saturated; [exact Hr |].
    rewrite Hgap; apply (onCircle_meanRadius_le c); [assumption | lia |].
    exact Hon. }
  split; [exact Hp |].
  simpl; unfold finalScore; rewrite Hp; reflexivity.
Qed.

Lemma closing_gap_of_one_radius_witness :
  0 < 2 /\
  onCircle {| x := 0; y := 0 |} 2 dwellArc /\
  closingDistance dwellArc = 2 /\
  closingPenalty dwellArc = 25 /\
  finalScore dwellArc = Math.max 0 (scoreFromShape dwellArc - 25).
Proof.
  assert (H2 : 0 < 2) by lra.
  split; [exact H2 |].
  split; [exact dwellArc_onCircle |].
  split; [exact dwellArc_closingDistance |].
  exact (closing_gap_of_one_radius _ 2 dwellArc _ H2 dwellArc_onCircle
           dwellArc_closingDistance dwellArc_analysis).
Defined.

(** ** The capture state machine *)

Lemma zigzag_gesture_window :
  WindowListeners.run WindowListeners.initial (gesture zigzag)
  = {| WindowListeners.points := zigzag;
       WindowListeners.appState := ANALYZING;
       WindowListeners.result := None;
       WindowListeners.copyStatus := COPY_IDLE;
       WindowListeners.listening := false;
       WindowListeners.deferred := [zigzag] |}.
Proof. reflexivity. Qed.

Lemma zigzag_gesture_canvas :
  CanvasHandlers.run CanvasHandlers.initial (gesture zigzag)
  = {| CanvasHandlers.points := zigzag;
       CanvasHandlers.appState := ANALYZING;
       CanvasHandlers.result := None;
       CanvasHandlers.deferred := [zigzag] |}.
Proof. reflexivity. Qed.

Lemma shortPath_gesture_window :
  WindowListeners.run WindowListeners.initial (gesture shortPath)
  = WindowListeners.initial.
Proof. reflexivity. Qed.

Lemma shortPath_gesture_canvas :
  CanvasHandlers.run CanvasHandlers.initial (gesture shortPath)
  = CanvasHandlers.initial.
Proof. reflexivity. Qed.

(** The reset button is rendered in state [RESULT] only: in any other
    state no reset reaches the component. *)
Lemma reset_only_in_result
    (s : WindowListeners.Component) (t : CanvasHandlers.Component) :
  WindowListeners.appState s <> RESULT ->
  CanvasHandlers.appState t <> RESULT ->
  WindowListeners.dispatch s ResetClick = s
  /\ CanvasHandlers.dispatch t ResetClick = t.
Proof.
  intros Hs Ht; simpl.
  destruct (WindowListeners.appState s), (CanvasHandlers.appState t);
    simpl; try contradiction; auto.
Qed.

(** C5, as stated, fails: after the gesture [zigzag] the state is
    Analyzing, and a gesture-start at (5, 5) moves it to Drawing and
    replaces the path. *)
Lemma start_while_analyzing_counterexample :
  let s := WindowListeners.run WindowListeners.initial (gesture zigzag) in
  let s' :=
    WindowListeners.dispatch s (GestureStart (Some {| x := 5; y := 5 |})) in
  WindowListeners.appState s = ANALYZING /\
  WindowListeners.points s = zigzag /\
  WindowListeners.appState s' = DRAWING /\
  WindowListeners.points s' = [ {| x := 5; y := 5 |} ] /\
  WindowListeners.appState s' <> ANALYZING /\
  WindowListeners.points s' <> WindowListeners.points s.
Proof.
  rewrite zigzag_gesture_window; simpl.
  repeat split; try reflexivity; unfold zigzag; intros H; discriminate H.
Qed.

(** C5, amended.  In state Analyzing a gesture-start event is acted on
    as in every other state: the state becomes Drawing, the path becomes
    the single start point and the result is null.  The deferred
    callback is not modified by it: it stays pending and, when it fires,
    still delivers the analysis of the path captured at gesture-end,
    setting the state to Result. *)
Theorem gesture_start_restarts
    (c : Point) (captured : list Point)
    (s : WindowListeners.Component) (t : CanvasHandlers.Component) :
  WindowListeners.appState s = ANALYZING ->
  WindowListeners.deferred s = [captured] ->
  CanvasHandlers.appState t = ANALYZING ->
  CanvasHandlers.deferred t = [captured] ->
  (let s' := WindowListeners.dispatch s (GestureStart (Some c)) in
   let s'' := WindowListeners.dispatch s' Timeout in
   WindowListeners.appState s' = DRAWING /\
   WindowListeners.points s' = [c] /\
   WindowListeners.result s' = None /\
   WindowListeners.deferred s' = [captured] /\
   WindowListeners.appState s'' = RESULT /\
   WindowListeners.points s'' = [c] /\
   WindowListeners.result s'' = analyzeCircle captured)
  /\
  (let t' := CanvasHandlers.dispatch t (GestureStart (Some c)) in
   let t'' := CanvasHandlers.dispatch t' Timeout in
   CanvasHandlers.appState t' = DRAWING /\
   CanvasHandlers.points t' = [c] /\
   CanvasHandlers.result t' = None /\
   CanvasHandlers.deferred t' = [captured] /\
   CanvasHandlers.appState t'' = RESULT /\
   CanvasHandlers.points t'' = [c] /\
   CanvasHandlers.result t'' = analyzeCircle captured).
Proof.
  intros _ Hs _ Ht; split.
  - unfold WindowListeners.dispatch, WindowListeners.timerFires,
      WindowListeners.handleStartDrawing; simpl.
    rewrite Hs; simpl; repeat split.
  - unfold CanvasHandlers.dispatch, CanvasHandlers.timerFires,
      CanvasHandlers.handleStartDrawing; simpl.
    rewrite Ht; simpl; repeat split.
Qed.

Lemma gesture_start_restarts_witness :
  let s := WindowListeners.run WindowListeners.initial (gesture zigzag) in
  let t := CanvasHandlers.run CanvasHandlers.initial (gesture zigzag) in
  let c := {| x := 5; y := 5 |} in
  WindowListeners.appState s = ANALYZING /\
  WindowListeners.deferred s = [zigzag] /\
  CanvasHandlers.appState t = ANALYZING /\
  CanvasHandlers.deferred t = [zigzag] /\
  WindowListeners.appState
    (WindowListeners.dispatch s (GestureStart (Some c))) = DRAWING /\
  CanvasHandlers.appState
    (CanvasHandlers.dispatch t (GestureStart (Some c))) = DRAWING.
Proof.
  intros s t c.
  assert (H1 : WindowListeners.appState s = ANALYZING) by reflexivity.
  assert (H2 : WindowListeners.deferred s = [zigzag]) by reflexivity.
  assert (H3 : CanvasHandlers.appState t = ANALYZING) by reflexivity.
  assert (H4 : CanvasHandlers.deferred t = [zigzag]) by reflexivity.
  pose proof (gesture_start_restarts c zigzag s t H1 H2 H3 H4)
    as [(Hs & _) (Ht & _)].
  repeat split; assumption.
Defined.

(** The state after [overlappingGestures]: Result, showing the analysis
    of the first gesture, with the callback of the second gesture still
    pending. *)
Lemma overlappingGestures_window :
  WindowListeners.run WindowListeners.initial overlappingGestures
  = {| WindowListeners.points := lopsided;
       WindowListeners.appState := RESULT;
       WindowListeners.result := analyzeCircle zigzag;
       WindowListeners.copyStatus := COPY_IDLE;
       WindowListeners.listening := false;
       WindowListeners.deferred := [lopsided] |}.
Proof. reflexivity. Qed.

Lemma overlappingGestures_canvas :
  CanvasHandlers.run CanvasHandlers.initial overlappingGestures
  = {| CanvasHandlers.points := lopsided;
       CanvasHandlers.appState := RESULT;
       CanvasHandlers.result := analyzeCircle zigzag;
       CanvasHandlers.deferred := [lopsided] |}.
Proof. reflexivity. Qed.

(** C6, as stated, fails.  The interface delivers no reset in state
    Analyzing, but it delivers one while a deferred callback is pending:
    after [overlappingGestures] the state is Result and the callback of
    the second gesture has not fired.  The reset click then gives Idle
    with a null result, and the firing of the callback after it sets
    the state to Result and the result to the analysis of the second
    gesture: the callback checks nothing. *)
Lemma reset_then_timeout_counterexample :
  let s := WindowListeners.run WindowListeners.initial overlappingGestures in
  let s1 := WindowListeners.dispatch s ResetClick in
  let s2 := WindowListeners.dispatch s1 Timeout in
  WindowListeners.appState s = RESULT /\
  WindowListeners.deferred s = [lopsided] /\
  WindowListeners.appState s1 = IDLE /\
  WindowListeners.result s1 = None /\
  WindowListeners.appState s2 = RESULT /\
  WindowListeners.result s2
  = Some {| score := finalScore lopsided; center := centerOf lopsided;
            radius := meanRadius lopsided |} /\
  WindowListeners.appState s2 <> IDLE /\
  WindowListeners.result s2 <> None.
Proof.
  rewrite overlappingGestures_window.
  unfold WindowListeners.dispatch, WindowListeners.timerFires,
    WindowListeners.handleReset, WindowListeners.analysisCallback; simpl.
  rewrite lopsided_analysis.
  repeat split; try reflexivity; intros H; discriminate H.
Qed.

(** C6, amended.  No reset is applied while the state is Analyzing: the
    reset button exists only in state Result, and a reset click in
    state Analyzing changes nothing.  The deferred callback does not
    check the current state: when a reset is applied in state Result
    while a deferred callback is still pending, the firing of that
    callback after the reset is not a no-op.  The state becomes Result,
    the result becomes the analysis of the path the callback captured,
    and the path stays empty. *)
Theorem deferred_callback_unconditional
    (u s : WindowListeners.Component) (v t : CanvasHandlers.Component)
    (captured : list Point) (rest : list (list Point)) :
  WindowListeners.appState u = ANALYZING ->
  CanvasHandlers.appState v = ANALYZING ->
  WindowListeners.appState s = RESULT ->
  WindowListeners.deferred s = captured :: rest ->
  CanvasHandlers.appState t = RESULT ->
  CanvasHandlers.deferred t = captured :: rest ->
  (WindowListeners.dispatch u ResetClick = u /\
   CanvasHandlers.dispatch v ResetClick = v)
  /\
  (let s1 := WindowListeners.dispatch s ResetClick in
   let s2 := WindowListeners.dispatch s1 Timeout in
   WindowListeners.appState s1 = IDLE /\
   WindowListeners.result s1 = None /\
   WindowListeners.appState s2 = RESULT /\
   WindowListeners.result s2 = analyzeCircle captured /\
   WindowListeners.points s2 = [] /\
   WindowListeners.deferred s2 = rest)
  /\
  (let t1 := CanvasHandlers.dispatch t ResetClick in
   let t2 := CanvasHandlers.dispatch t1 Timeout in
   CanvasHandlers.appState t1 = IDLE /\
   CanvasHandlers.result t1 = None /\
   CanvasHandlers.appState t2 = RESULT /\
   CanvasHandlers.result t2 = analyzeCircle captured /\
   CanvasHandlers.points t2 = [] /\
   CanvasHandlers.deferred t2 = rest).
Proof.
  intros Hu Hv Hs Hds Ht Hdt.
  split; [| split].
  - apply reset_only_in_result; congruence.
  - unfold WindowListeners.dispatch, WindowListeners.timerFires.
    rewrite Hs; simpl; rewrite Hds; simpl; repeat split.
  - unfold CanvasHandlers.dispatch, CanvasHandlers.timerFires.
    rewrite Ht; simpl; rewrite Hdt; simpl; repeat split.
Qed.

Lemma deferred_callback_unconditional_witness :
  let u := WindowListeners.run WindowListeners.initial (gesture zigzag) in
  let v := CanvasHandlers.run CanvasHandlers.initial (gesture zigzag) in
  let s := WindowListeners.run WindowListeners.initial overlappingGestures in
  let t := CanvasHandlers.run CanvasHandlers.initial overlappingGestures in
  WindowListeners.appState u = ANALYZING /\
  CanvasHandlers.appState v = ANALYZING /\
  WindowListeners.appState s = RESULT /\
  WindowListeners.deferred s = [lopsided] /\
  CanvasHandlers.appState t = RESULT /\
  CanvasHandlers.deferred t = [lopsided] /\
  WindowListeners.appState
    (WindowListeners.dispatch (WindowListeners.dispatch s ResetClick)
       Timeout) = RESULT /\
  CanvasHandlers.appState
    (CanvasHandlers.dispatch (CanvasHandlers.dispatch t ResetClick)
       Timeout) = RESULT.
Proof.
  intros u v s t.
  assert (H1 : WindowListeners.appState u = ANALYZING) by reflexivity.
  assert (H2 : CanvasHandlers.appState v = ANALYZING) by reflexivity.
  assert (H3 : WindowListeners.appState s = RESULT) by reflexivity.
  assert (H4 : WindowListeners.deferred s = [lopsided]) by reflexivity.
  assert (H5 : CanvasHandlers.appState t = RESULT) by reflexivity.
  assert (H6 : CanvasHandlers.deferred t = [lopsided]) by reflexivity.
  pose proof (deferred_callback_unconditional u s v t lopsided []
                H1 H2 H3 H4 H5 H6)
    as (_ & (_ & _ & Hs & _) & (_ & _ & Ht & _)).
  repeat split; assumption.
Defined.

(** C7.  A gesture-end received in state Drawing with a path of fewer
    than ten points sets the state to Idle, empties the path and clears
    the result; no analysis is scheduled, so no score is computed. *)
Theorem short_gesture_discarded
    (s : WindowListeners.Component) (t : CanvasHandlers.Component) :
  WindowListeners.appState s = DRAWING ->
  (length (WindowListeners.points s) < 10)%nat ->
  CanvasHandlers.appState t = DRAWING ->
  (length (CanvasHandlers.points t) < 10)%nat ->
  (let s' := WindowListeners.handleEndDrawing s in
   WindowListeners.appState s' = IDLE /\
   WindowListeners.points s' = [] /\
   WindowListeners.result s' = None /\
   WindowListeners.deferred s' = WindowListeners.deferred s)
  /\
  (let t' := CanvasHandlers.handleEndDrawing t in
   CanvasHandlers.appState t' = IDLE /\
   CanvasHandlers.points t' = [] /\
   CanvasHandlers.result t' = None /\
   CanvasHandlers.deferred t' = CanvasHandlers.deferred t).
Proof.
  intros _ Hs Ht Hlt.
  apply Nat.ltb_lt in Hs, Hlt.
  unfold WindowListeners.handleEndDrawing, CanvasHandlers.handleEndDrawing.
  rewrite Hs, Ht, Hlt; simpl; repeat split.
Qed.

Lemma short_gesture_discarded_witness :
  let s := WindowListeners.run WindowListeners.initial
             (removelast (gesture shortPath)) in
  let t := CanvasHandlers.run CanvasHandlers.initial
             (removelast (gesture shortPath)) in
  WindowListeners.appState s = DRAWING /\
  (length (WindowListeners.points s) < 10)%nat /\
  CanvasHandlers.appState t = DRAWING /\
  (length (CanvasHandlers.points t) < 10)%nat /\
  WindowListeners.appState (WindowListeners.handleEndDrawing s) = IDLE /\
  CanvasHandlers.appState (CanvasHandlers.handleEndDrawing t) = IDLE.
Proof.
  intros s t.
  assert (H1 : WindowListeners.appState s = DRAWING) by reflexivity.
  assert (H2 : (length (WindowListeners.points s) < 10)%nat)
    by (simpl; lia).
  assert (H3 : CanvasHandlers.appState t = DRAWING) by reflexivity.
  assert (H4 : (length (CanvasHandlers.points t) < 10)%nat)
    by (simpl; lia).
  pose proof (short_gesture_discarded s t H1 H2 H3 H4)
    as [(Hs & _) (Ht & _)].
  repeat split; assumption.
Defined.

(** ** Rounding and the star rating *)

Lemma Int_part_floor (n : Z) (r : R) : IZR n <= r <-> (n <= Int_part r)%Z.
Proof.
  destruct (base_Int_part r) as [Hlo Hhi]; split; intros H.
  - apply Z.lt_succ_r, lt_IZR.
    rewrite succ_IZR; lra.
  - apply IZR_le in H; lra.
Qed.

Lemma Math_round_ge (n : Z) (a : R) :
  IZR n <= Math_round a <-> IZR n - / 2 <= a.
Proof.
  unfold Math_round; split; intros H.
  - apply le_IZR, Int_part_floor in H; lra.
  - apply IZR_le, Int_part_floor; lra.
Qed.

Lemma Math_round_near (a : R) :
  a - / 2 < Math_round a <= a + / 2.
Proof.
  unfold Math_round; destruct (base_Int_part (a + / 2)); lra.
Qed.

Lemma geq_true (a b : R) : geq a b = true <-> b <= a.
Proof.
  unfold geq; destruct (Rle_dec b a); split; intros; try lra; congruence.
Qed.

Lemma geq_round (n : Z) (a : R) :
  geq (Math_round a) (IZR n) = geq a (IZR n - / 2).
Proof.
  pose proof (Math_round_ge n a) as H.
  unfold geq.
  destruct (Rle_dec (IZR n) (Math_round a)),
    (Rle_dec (IZR n - / 2) a); tauto.
Qed.

(** [getStarRating] returns the row of five stars in which the number
    of filled stars is the number of tier thresholds that the score
    reaches. *)
Lemma getStarRating_row (score : R) :
  getStarRating score = starRow (tiersReached score).
Proof.
  unfold getStarRating.
  rewrite !geq_round.
  replace (90 - / 2) with 89.5 by lra.
  replace (75 - / 2) with 74.5 by lra.
  replace (60 - / 2) with 59.5 by lra.
  replace (40 - / 2) with 39.5 by lra.
  replace (20 - / 2) with 19.5 by lra.
  unfold tiersReached, tierThresholds, filter, geq.
  destruct (Rle_dec 89.5 score), (Rle_dec 74.5 score),
    (Rle_dec 59.5 score), (Rle_dec 39.5 score), (Rle_dec 19.5 score);
    try reflexivity; exfalso; lra.
Qed.

Lemma tiersReached_monotone (s1 s2 : R) :
  s1 <= s2 -> (tiersReached s1 <= tiersReached s2)%nat.
Proof.
  intros H; unfold tiersReached, tierThresholds, filter, geq.
  destruct (Rle_dec 89.5 s1), (Rle_dec 74.5 s1), (Rle_dec 59.5 s1),
    (Rle_dec 39.5 s1), (Rle_dec 19.5 s1);
    try (exfalso; lra);
    destruct (Rle_dec 89.5 s2), (Rle_dec 74.5 s2), (Rle_dec 59.5 s2),
      (Rle_dec 39.5 s2), (Rle_dec 19.5 s2);
    try (exfalso; lra); simpl; lia.
Qed.

Lemma tiersReached_le_5 (s : R) : (tiersReached s <= 5)%nat.
Proof.
  unfold tiersReached.
  apply Nat.le_trans with (length tierThresholds);
    [apply filter_length_le | simpl; lia].
Qed.

Lemma starRow_injective (k1 k2 : nat) :
  (k1 <= 5)%nat -> (k2 <= 5)%nat -> starRow k1 = starRow k2 -> k1 = k2.
Proof.
  intros H1 H2 H.
  apply (f_equal String.length) in H.
  assert (C1 : (k1 = 0 \/ k1 = 1 \/ k1 = 2 \/ k1 = 3 \/ k1 = 4 \/ k1 = 5)%nat)
    by lia.
  assert (C2 : (k2 = 0 \/ k2 = 1 \/ k2 = 2 \/ k2 = 3 \/ k2 = 4 \/ k2 = 5)%nat)
    by lia.
  destruct C1 as [-> | [-> | [-> | [-> | [-> | ->]]]]],
    C2 as [-> | [-> | [-> | [-> | [-> | ->]]]]];
    try reflexivity; vm_compute in H; discriminate H.
Qed.

Lemma tiersReached_cases (s : R) :
  (tiersReached s = 5%nat <-> 89.5 <= s) /\
  (tiersReached s = 4%nat <-> 74.5 <= s < 89.5) /\
  (tiersReached s = 3%nat <-> 59.5 <= s < 74.5) /\
  (tiersReached s = 2%nat <-> 39.5 <= s < 59.5) /\
  (tiersReached s = 1%nat <-> 19.5 <= s < 39.5) /\
  (tiersReached s = 0%nat <-> s < 19.5).
Proof.
  unfold tiersReached, tierThresholds, filter, geq.
  destruct (Rle_dec 89.5 s), (Rle_dec 74.5 s), (Rle_dec 59.5 s),
    (Rle_dec 39.5 s), (Rle_dec 19.5 s);
    try (exfalso; lra); simpl;
    repeat split; intros; try lra; try lia; try discriminate.
Qed.

Lemma starRow_tier (s : R) (k : nat) :
  (k <= 5)%nat ->
  (getStarRating s = starRow k <-> tiersReached s = k).
Proof.
  intros Hk; rewrite getStarRating_row; split.
  - apply starRow_injective; [apply tiersReached_le_5 | exact Hk].
  - intros ->; reflexivity.
Qed.

(** X1.  Because the score is rounded to the nearest integer before it
    is compared with 90, 75, 60, 40 and 20, the star tiers change at
    89.5, 74.5, 59.5, 39.5 and 19.5: [getStarRating] shows five filled
    stars exactly for scores of at least 89.5, four for scores from 74.5
    up to but not including 89.5, and so on down to none below 19.5. *)
Theorem getStarRating_tiers (score : R) :
  (getStarRating score = starRow 5 <-> 89.5 <= score) /\
  (getStarRating score = starRow 4 <-> 74.5 <= score < 89.5) /\
  (getStarRating score = starRow 3 <-> 59.5 <= score < 74.5) /\
  (getStarRating score = starRow 2 <-> 39.5 <= score < 59.5) /\
  (getStarRating score = starRow 1 <-> 19.5 <= score < 39.5) /\
  (getStarRating score = starRow 0 <-> score < 19.5).
Proof.
  destruct (tiersReached_cases score) as (H5 & H4 & H3 & H2 & H1 & H0).
  rewrite !starRow_tier by lia.
  repeat split; tauto.
Qed.

(** X2.  A higher score never shows fewer filled stars. *)
Theorem getStarRating_monotone (s1 s2 : R) (k1 k2 : nat) :
  s1 <= s2 ->
  (k1 <= 5)%nat -> (k2 <= 5)%nat ->
  getStarRating s1 = starRow k1 ->
  getStarRating s2 = starRow k2 ->
  (k1 <= k2)%nat.
Proof.
  intros Hle Hk1 Hk2 E1 E2.
  rewrite getStarRating_row in E1, E2.
  apply starRow_injective in E1, E2;
    try assumption; try apply tiersReached_le_5.
  subst; apply tiersReached_monotone, Hle.
Qed.

Lemma tiersReached_50 : tiersReached 50 = 2%nat.
Proof.
  unfold tiersReached, tierThresholds, filter, geq.
  destruct (Rle_dec 89.5 50), (Rle_dec 74.5 50), (Rle_dec 59.5 50),
    (Rle_dec 39.5 50), (Rle_dec 19.5 50);
    try reflexivity; exfalso; lra.
Qed.

Lemma tiersReached_95 : tiersReached 95 = 5%nat.
Proof.
  unfold tiersReached, tierThresholds, filter, geq.
  destruct (Rle_dec 89.5 95), (Rle_dec 74.5 95), (Rle_dec 59.5 95),
    (Rle_dec 39.5 95), (Rle_dec 19.5 95);
    try reflexivity; exfalso; lra.
Qed.

Lemma getStarRating_monotone_witness :
  50 <= 95 /\
  getStarRating 50 = starRow 2 /\
  getStarRating 95 = starRow 5 /\
  (2 <= 5)%nat.
Proof.
  assert (H : 50 <= 95) by lra.
  assert (E1 : getStarRating 50 = starRow 2)
    by (rewrite getStarRating_row, tiersReached_50; reflexivity).
  assert (E2 : getStarRating 95 = starRow 5)
    by (rewrite getStarRating_row, tiersReached_95; reflexivity).
  repeat split; try assumption.
  exact (getStarRating_monotone 50 95 2 5 H ltac:(lia) ltac:(lia) E1 E2).
Defined.

(** ** Invariants of the capture state machine *)

Lemma windowInvariant_initial : windowInvariant WindowListeners.initial.
Proof. unfold windowInvariant; simpl; intuition (auto; congruence). Qed.

Lemma canvasInvariant_initial : canvasInvariant CanvasHandlers.initial.
Proof. unfold canvasInvariant; simpl; intuition (auto; congruence). Qed.

Lemma analysed_analyzeCircle (captured : list Point) :
  (10 <= length captured)%nat -> analysed (analyzeCircle captured).
Proof.
  intros H; unfold analysed.
  destruct (analyzeCircle captured) as [r|] eqn:E; [| exact I].
  exists captured; split; [exact H | exact E].
Qed.

Ltac close_invariant :=
  solve [simpl in *; intuition (simpl; auto; try congruence)].

Lemma windowInvariant_dispatch
    (s : WindowListeners.Component) (e : Event) :
  windowInvariant s -> windowInvariant (WindowListeners.dispatch s e).
Proof.
  unfold windowInvariant.
  destruct s as [pts st res cs lis dfr]; simpl.
  intros (Hd & Hr & Hl & Ha & Hi).
  destruct e as [coords | coords | | |]; simpl.
  - close_invariant.
  - destruct lis; [| close_invariant].
    destruct coords as [c|]; [| close_invariant].
    simpl; repeat split; auto.
    intros H; rewrite length_app; specialize (Ha H); lia.
  - destruct lis; [| close_invariant].
    unfold WindowListeners.handleEndDrawing; simpl.
    destruct (length pts <? 10)%nat eqn:Hlen; [close_invariant |].
    apply Nat.ltb_ge in Hlen.
    assert (Forall (fun captured => (10 <= length captured)%nat)
                   (dfr ++ [pts])).
    { apply Forall_app; split; [assumption |].
      constructor; [exact Hlen | constructor]. }
    close_invariant.
  - destruct (appStateEq st RESULT); close_invariant.
  - unfold WindowListeners.timerFires; simpl.
    destruct dfr as [|captured rest]; [close_invariant |].
    inversion Hd as [|? ? Hc Hrest]; subst.
    pose proof (analysed_analyzeCircle captured Hc).
    close_invariant.
Qed.

Lemma canvasInvariant_dispatch
    (t : CanvasHandlers.Component) (e : Event) :
  canvasInvariant t -> canvasInvariant (CanvasHandlers.dispatch t e).
Proof.
  unfold canvasInvariant.
  destruct t as [pts st res dfr]; simpl.
  intros (Hd & Hr & Ha & Hi & Hres).
  destruct e as [coords | coords | | |]; simpl.
  - close_invariant.
  - unfold CanvasHandlers.handleDrawing; simpl.
    destruct st, coords as [c|]; close_invariant.
  - unfold CanvasHandlers.handleEndDrawing; simpl.
    destruct st; try close_invariant.
    destruct (length pts <? 10)%nat eqn:Hlen; [close_invariant |].
    apply Nat.ltb_ge in Hlen.
    assert (Forall (fun captured => (10 <= length captured)%nat)
                   (dfr ++ [pts])).
    { apply Forall_app; split; [assumption |].
      constructor; [exact Hlen | constructor]. }
    close_invariant.
  - destruct (appStateEq st RESULT); close_invariant.
  - unfold CanvasHandlers.timerFires; simpl.
    destruct dfr as [|captured rest]; [close_invariant |].
    inversion Hd as [|? ? Hc Hrest]; subst.
    pose proof (analysed_analyzeCircle captured Hc).
    close_invariant.
Qed.

Lemma windowInvariant_run (es : list Event) (s : WindowListeners.Component) :
  windowInvariant s -> windowInvariant (WindowListeners.run s es).
Proof.
  revert s; induction es as [|e es IH]; intros s H; simpl.
  - exact H.
  - apply IH, windowInvariant_dispatch, H.
Qed.

Lemma canvasInvariant_run (es : list Event) (t : CanvasHandlers.Component) :
  canvasInvariant t -> canvasInvariant (CanvasHandlers.run t es).
Proof.
  revert t; induction es as [|e es IH]; intros t H; simpl.
  - exact H.
  - apply IH, canvasInvariant_dispatch, H.
Qed.

Lemma windowInvariant_reached (es : list Event) :
  windowInvariant (WindowListeners.run WindowListeners.initial es).
Proof. apply windowInvariant_run, windowInvariant_initial. Qed.

Lemma canvasInvariant_reached (es : list Event) :
  canvasInvariant (CanvasHandlers.run CanvasHandlers.initial es).
Proof. apply canvasInvariant_run, canvasInvariant_initial. Qed.

(** X3.  Whatever events the interface delivers from the initial
    state, every path captured by a pending analysis callback has at
    least ten points: the scoring is never scheduled for a shorter
    path. *)
Theorem captured_paths_have_ten_points (es : list Event) :
  Forall (fun captured => (10 <= length captured)%nat)
         (WindowListeners.deferred
            (WindowListeners.run WindowListeners.initial es))
  /\
  Forall (fun captured => (10 <= length captured)%nat)
         (CanvasHandlers.deferred
            (CanvasHandlers.run CanvasHandlers.initial es)).
Proof.
  split.
  - apply (windowInvariant_reached es).
  - apply (canvasInvariant_reached es).
Qed.

Lemma analysed_wellFormed (result : option AnalysisResult) :
  analysed result ->
  match result with Some r => wellFormed r | None => True end.
Proof.
  destruct result as [r|]; [| trivial].
  intros (path & _ & H).
  apply analyzeCircle_some in H; destruct H as (_ & Hr & ->).
  split; simpl; [apply finalScore_bounds | apply meanRadius_pos]; exact Hr.
Qed.

(** X4.  In every state reached from the initial state the stored
    result is null or the analysis of a path of at least ten points, and
    so has a score in [0, 100] and a positive radius. *)
Theorem stored_result_is_an_analysis (es : list Event) :
  let s := WindowListeners.run WindowListeners.initial es in
  let t := CanvasHandlers.run CanvasHandlers.initial es in
  (analysed (WindowListeners.result s) /\
   match WindowListeners.result s with
   | Some r => wellFormed r
   | None => True
   end)
  /\
  (analysed (CanvasHandlers.result t) /\
   match CanvasHandlers.result t with
   | Some r => wellFormed r
   | None => True
   end).
Proof.
  intros s t.
  destruct (windowInvariant_reached es) as (_ & Hs & _).
  destruct (canvasInvariant_reached es) as (_ & Ht & _).
  repeat split; try assumption; apply analysed_wellFormed; assumption.
Qed.

(** X5.  In the version with window listeners, whenever a state reached
    from the initial state is Drawing, the move and end listeners are
    registered: a gesture in progress can always be continued and
    ended. *)
Theorem drawing_has_listeners (es : list Event) :
  WindowListeners.appState
    (WindowListeners.run WindowListeners.initial es) = DRAWING ->
  WindowListeners.listening
    (WindowListeners.run WindowListeners.initial es) = true.
Proof. apply (windowInvariant_reached es). Qed.

Lemma drawing_has_listeners_witness :
  let es := [GestureStart (Some {| x := 5; y := 5 |})] in
  WindowListeners.appState
    (WindowListeners.run WindowListeners.initial es) = DRAWING /\
  WindowListeners.listening
    (WindowListeners.run WindowListeners.initial es) = true.
Proof.
  intros es.
  assert (H : WindowListeners.appState
                (WindowListeners.run WindowListeners.initial es) = DRAWING)
    by reflexivity.
  split; [exact H | exact (drawing_has_listeners es H)].
Defined.

(** X6.  In the version with window listeners, a state reached from the
    initial state that is Analyzing holds a path of at least ten
    points. *)
Theorem analyzing_path_window (es : list Event) :
  WindowListeners.appState
    (WindowListeners.run WindowListeners.initial es) = ANALYZING ->
  (10 <= length (WindowListeners.points
                   (WindowListeners.run WindowListeners.initial es)))%nat.
Proof. apply (windowInvariant_reached es). Qed.

Lemma analyzing_path_window_witness :
  WindowListeners.appState
    (WindowListeners.run WindowListeners.initial (gesture zigzag))
  = ANALYZING /\
  (10 <= length (WindowListeners.points
                   (WindowListeners.run WindowListeners.initial
                      (gesture zigzag))))%nat.
Proof.
  assert (H : WindowListeners.appState
                (WindowListeners.run WindowListeners.initial
                   (gesture zigzag)) = ANALYZING)
    by reflexivity.
  split; [exact H | exact (analyzing_path_window (gesture zigzag) H)].
Defined.

(** X7.  In the version with canvas handlers, a state reached from the
    initial state that is Analyzing holds a path of at least ten
    points. *)
Theorem analyzing_path_canvas (es : list Event) :
  CanvasHandlers.appState
    (CanvasHandlers.run CanvasHandlers.initial es) = ANALYZING ->
  (10 <= length (CanvasHandlers.points
                   (CanvasHandlers.run CanvasHandlers.initial es)))%nat.
Proof. apply (canvasInvariant_reached es). Qed.

Lemma analyzing_path_canvas_witness :
  CanvasHandlers.appState
    (CanvasHandlers.run CanvasHandlers.initial (gesture zigzag))
  = ANALYZING /\
  (10 <= length (CanvasHandlers.points
                   (CanvasHandlers.run CanvasHandlers.initial
                      (gesture zigzag))))%nat.
Proof.
  assert (H : CanvasHandlers.appState
                (CanvasHandlers.run CanvasHandlers.initial
                   (gesture zigzag)) = ANALYZING)
    by reflexivity.
  split; [exact H | exact (analyzing_path_canvas (gesture zigzag) H)].
Defined.

(** X8.  In the version with canvas handlers, a result is stored only
    in state Result: every state reached from the initial state that
    holds a result is in state Result. *)
Theorem result_only_in_result_state_canvas
    (es : list Event) (r : AnalysisResult) :
  CanvasHandlers.result
    (CanvasHandlers.run CanvasHandlers.initial es) = Some r ->
  CanvasHandlers.appState
    (CanvasHandlers.run CanvasHandlers.initial es) = RESULT.
Proof.
  destruct (canvasInvariant_reached es) as (_ & _ & _ & _ & H).
  intros Hr.
  destruct (CanvasHandlers.appState
              (CanvasHandlers.run CanvasHandlers.initial es));
    try reflexivity;
    rewrite H in Hr by (intros E; discriminate E); discriminate Hr.
Qed.

Lemma result_only_in_result_state_canvas_witness :
  let es := gesture zigzag ++ [Timeout] in
  CanvasHandlers.result (CanvasHandlers.run CanvasHandlers.initial es)
  = Some {| score := finalScore zigzag; center := centerOf zigzag;
            radius := meanRadius zigzag |}
  /\ CanvasHandlers.appState
       (CanvasHandlers.run CanvasHandlers.initial es) = RESULT.
Proof.
  intros es.
  assert (H : CanvasHandlers.result
                (CanvasHandlers.run CanvasHandlers.initial es)
              = Some {| score := finalScore zigzag;
                        center := centerOf zigzag;
                        radius := meanRadius zigzag |})
    by (unfold es; simpl; apply zigzag_analysis).
  split; [exact H | exact (result_only_in_result_state_canvas es _ H)].
Defined.

(** X21.  In the version with canvas handlers, a state reached from the
    initial state that is Idle has an empty path. *)
Theorem idle_is_blank_canvas (es : list Event) :
  CanvasHandlers.appState
    (CanvasHandlers.run CanvasHandlers.initial es) = IDLE ->
  CanvasHandlers.points
    (CanvasHandlers.run CanvasHandlers.initial es) = [].
Proof.
  destruct (canvasInvariant_reached es) as (_ & _ & _ & H & _).
  exact H.
Qed.

Lemma idle_is_blank_canvas_witness :
  let es := gesture zigzag ++ [Timeout; ResetClick] in
  CanvasHandlers.appState
    (CanvasHandlers.run CanvasHandlers.initial es) = IDLE /\
  CanvasHandlers.points
    (CanvasHandlers.run CanvasHandlers.initial es) = [].
Proof.
  intros es.
  assert (H : CanvasHandlers.appState
                (CanvasHandlers.run CanvasHandlers.initial es) = IDLE)
    by reflexivity.
  split; [exact H | exact (idle_is_blank_canvas es H)].
Defined.

(** X9.  In the version with window listeners, a state reached from
    the initial state that is Idle or Drawing has a null result. *)
Theorem no_result_while_idle_or_drawing_window (es : list Event) :
  WindowListeners.appState
    (WindowListeners.run WindowListeners.initial es) = IDLE \/
  WindowListeners.appState
    (WindowListeners.run WindowListeners.initial es) = DRAWING ->
  WindowListeners.result
    (WindowListeners.run WindowListeners.initial es) = None.
Proof.
  destruct (windowInvariant_reached es) as (_ & _ & _ & _ & H).
  exact H.
Qed.

Lemma no_result_while_idle_or_drawing_window_witness :
  let es := gesture zigzag ++ [Timeout; GestureStart (Some {| x := 5; y := 5 |})] in
  (WindowListeners.appState
     (WindowListeners.run WindowListeners.initial es) = IDLE \/
   WindowListeners.appState
     (WindowListeners.run WindowListeners.initial es) = DRAWING) /\
  WindowListeners.result
    (WindowListeners.run WindowListeners.initial es) = None.
Proof.
  intros es.
  assert (H : WindowListeners.appState
                (WindowListeners.run WindowListeners.initial es) = IDLE \/
              WindowListeners.appState
                (WindowListeners.run WindowListeners.initial es) = DRAWING)
    by (right; reflexivity).
  split; [exact H | exact (no_result_while_idle_or_drawing_window es H)].
Defined.

(** ** Complete gestures *)

Lemma window_moves (rest : list Point) (s : WindowListeners.Component) :
  WindowListeners.listening s = true ->
  WindowListeners.run s (map (fun q => GestureMove (Some q)) rest)
  = {| WindowListeners.points := WindowListeners.points s ++ rest;
       WindowListeners.appState := WindowListeners.appState s;
       WindowListeners.result := WindowListeners.result s;
       WindowListeners.copyStatus := WindowListeners.copyStatus s;
       WindowListeners.listening := true;
       WindowListeners.deferred := WindowListeners.deferred s |}.
Proof.
  revert s; induction rest as [|q rest IH]; intros s Hs.
  - destruct s; simpl in *; subst; rewrite app_nil_r; reflexivity.
  - simpl; rewrite Hs; rewrite IH by reflexivity; simpl.
    rewrite <- app_assoc; reflexivity.
Qed.

Lemma canvas_moves (rest : list Point) (t : CanvasHandlers.Component) :
  CanvasHandlers.appState t = DRAWING ->
  CanvasHandlers.run t (map (fun q => GestureMove (Some q)) rest)
  = {| CanvasHandlers.points := CanvasHandlers.points t ++ rest;
       CanvasHandlers.appState := DRAWING;
       CanvasHandlers.result := CanvasHandlers.result t;
       CanvasHandlers.deferred := CanvasHandlers.deferred t |}.
Proof.
  revert t; induction rest as [|q rest IH]; intros t Ht.
  - destruct t; simpl in *; subst; rewrite app_nil_r; reflexivity.
  - destruct t as [pts st res dfr]; simpl in Ht; subst st; simpl.
    rewrite IH by reflexivity; simpl.
    rewrite <- app_assoc; reflexivity.
Qed.

Lemma window_gesture_drawn (p : Point) (rest : list Point) :
  WindowListeners.run WindowListeners.initial
    (GestureStart (Some p) :: map (fun q => GestureMove (Some q)) rest)
  = {| WindowListeners.points := p :: rest;
       WindowListeners.appState := DRAWING;
       WindowListeners.result := None;
       WindowListeners.copyStatus := COPY_IDLE;
       WindowListeners.listening := true;
       WindowListeners.deferred := [] |}.
Proof. simpl; rewrite window_moves by reflexivity; reflexivity. Qed.

Lemma canvas_gesture_drawn (p : Point) (rest : list Point) :
  CanvasHandlers.run CanvasHandlers.initial
    (GestureStart (Some p) :: map (fun q => GestureMove (Some q)) rest)
  = {| CanvasHandlers.points := p :: rest;
       CanvasHandlers.appState := DRAWING;
       CanvasHandlers.result := None;
       CanvasHandlers.deferred := [] |}.
Proof. simpl; rewrite canvas_moves by reflexivity; reflexivity. Qed.

Lemma window_run_app (s : WindowListeners.Component) (es1 es2 : list Event) :
  WindowListeners.run s (es1 ++ es2)
  = WindowListeners.run (WindowListeners.run s es1) es2.
Proof. apply fold_left_app. Qed.

Lemma canvas_run_app (t : CanvasHandlers.Component) (es1 es2 : list Event) :
  CanvasHandlers.run t (es1 ++ es2)
  = CanvasHandlers.run (CanvasHandlers.run t es1) es2.
Proof. apply fold_left_app. Qed.

Lemma gesture_cons (p : Point) (rest : list Point) :
  gesture (p :: rest)
  = (GestureStart (Some p) :: map (fun q => GestureMove (Some q)) rest)
    ++ [GestureEnd].
Proof. reflexivity. Qed.

(** X10.  A gesture of fewer than ten samples, from start to end,
    leaves the component in its initial state: nothing is scheduled and
    nothing is shown. *)
Theorem short_gesture_returns_to_initial (path : list Point) :
  (length path < 10)%nat ->
  WindowListeners.run WindowListeners.initial (gesture path)
  = WindowListeners.initial
  /\ CanvasHandlers.run CanvasHandlers.initial (gesture path)
     = CanvasHandlers.initial.
Proof.
  intros Hlen; destruct path as [|p rest]; [split; reflexivity |].
  rewrite gesture_cons, window_run_app, canvas_run_app.
  rewrite window_gesture_drawn, canvas_gesture_drawn.
  apply Nat.ltb_lt in Hlen.
  remember (p :: rest) as pts eqn:Hpts; clear Hpts.
  unfold WindowListeners.run, CanvasHandlers.run; simpl.
  unfold WindowListeners.handleEndDrawing, CanvasHandlers.handleEndDrawing.
  simpl; rewrite Hlen; split; reflexivity.
Qed.

Lemma short_gesture_returns_to_initial_witness :
  (length shortPath < 10)%nat /\
  WindowListeners.run WindowListeners.initial (gesture shortPath)
  = WindowListeners.initial /\
  CanvasHandlers.run CanvasHandlers.initial (gesture shortPath)
  = CanvasHandlers.initial.
Proof.
  assert (H : (length shortPath < 10)%nat) by (simpl; lia).
  split; [exact H | exact (short_gesture_returns_to_initial shortPath H)].
Defined.

(** The state after a gesture of at least ten samples and the expiry of
    the timer. *)
Lemma complete_gesture_states (path : list Point) :
  (10 <= length path)%nat ->
  WindowListeners.run WindowListeners.initial (gesture path ++ [Timeout])
  = {| WindowListeners.points := path;
       WindowListeners.appState := RESULT;
       WindowListeners.result := analyzeCircle path;
       WindowListeners.copyStatus := COPY_IDLE;
       WindowListeners.listening := false;
       WindowListeners.deferred := [] |}
  /\
  CanvasHandlers.run CanvasHandlers.initial (gesture path ++ [Timeout])
  = {| CanvasHandlers.points := path;
       CanvasHandlers.appState := RESULT;
       CanvasHandlers.result := analyzeCircle path;
       CanvasHandlers.deferred := [] |}.
Proof.
  intros Hlen; destruct path as [|p rest]; [simpl in Hlen; lia |].
  rewrite gesture_cons, !window_run_app, !canvas_run_app.
  rewrite window_gesture_drawn, canvas_gesture_drawn.
  apply Nat.ltb_ge in Hlen.
  remember (p :: rest) as pts eqn:Hpts; clear Hpts.
  unfold WindowListeners.run, CanvasHandlers.run; simpl.
  unfold WindowListeners.handleEndDrawing, CanvasHandlers.handleEndDrawing.
  simpl; rewrite Hlen; split; reflexivity.
Qed.

(** X11.  A gesture of at least ten samples followed by the expiry of
    the timer ends in state Result with no callback pending, the path
    equal to the samples in the order they were taken, none dropped or
    merged, and the result equal to the analysis of exactly that
    path. *)
Theorem complete_gesture_is_analysed (path : list Point) :
  (10 <= length path)%nat ->
  let s := WindowListeners.run WindowListeners.initial
             (gesture path ++ [Timeout]) in
  let t := CanvasHandlers.run CanvasHandlers.initial
             (gesture path ++ [Timeout]) in
  (WindowListeners.appState s = RESULT /\
   WindowListeners.points s = path /\
   WindowListeners.result s = analyzeCircle path /\
   WindowListeners.deferred s = [])
  /\
  (CanvasHandlers.appState t = RESULT /\
   CanvasHandlers.points t = path /\
   CanvasHandlers.result t = analyzeCircle path /\
   CanvasHandlers.deferred t = []).
Proof.
  intros Hlen s t.
  destruct (complete_gesture_states path Hlen) as [Hs Ht].
  unfold s, t; rewrite Hs, Ht; simpl.
  repeat split.
Qed.

Lemma complete_gesture_is_analysed_witness :
  (10 <= length zigzag)%nat /\
  WindowListeners.appState
    (WindowListeners.run WindowListeners.initial
       (gesture zigzag ++ [Timeout])) = RESULT /\
  CanvasHandlers.appState
    (CanvasHandlers.run CanvasHandlers.initial
       (gesture zigzag ++ [Timeout])) = RESULT.
Proof.
  assert (H : (10 <= length zigzag)%nat) by (simpl; lia).
  destruct (complete_gesture_is_analysed zigzag H)
    as [(Hs & _) (Ht & _)].
  split; [exact H | split; [exact Hs | exact Ht]].
Defined.

(** X12.  After a complete gesture and its analysis, a click on the
    reset button brings the component back to its initial state. *)
Theorem reset_after_result_is_initial (path : list Point) :
  (10 <= length path)%nat ->
  WindowListeners.run WindowListeners.initial
    (gesture path ++ [Timeout; ResetClick])
  = WindowListeners.initial
  /\
  CanvasHandlers.run CanvasHandlers.initial
    (gesture path ++ [Timeout; ResetClick])
  = CanvasHandlers.initial.
Proof.
  intros Hlen.
  destruct (complete_gesture_states path Hlen) as [Hs Ht].
  change [Timeout; ResetClick] with ([Timeout] ++ [ResetClick]).
  rewrite app_assoc, window_run_app, canvas_run_app, Hs, Ht.
  split; reflexivity.
Qed.

Lemma reset_after_result_is_initial_witness :
  (10 <= length zigzag)%nat /\
  WindowListeners.run WindowListeners.initial
    (gesture zigzag ++ [Timeout; ResetClick])
  = WindowListeners.initial /\
  CanvasHandlers.run CanvasHandlers.initial
    (gesture zigzag ++ [Timeout; ResetClick])
  = CanvasHandlers.initial.
Proof.
  assert (H : (10 <= length zigzag)%nat) by (simpl; lia).
  split; [exact H | exact (reset_after_result_is_initial zigzag H)].
Defined.

(** ** What is shown *)

Lemma Math_round_percentage (a : R) :
  0 <= a <= 100 ->
  0 <= Math_round a <= 100 /\ exists n : Z, Math_round a = IZR n.
Proof.
  intros [Hlo Hhi]; split; [split |].
  - apply (Math_round_ge 0); lra.
  - destruct (Rle_dec (Math_round a) 100) as [H | H]; [exact H | exfalso].
    assert (H101 : IZR 101 <= Math_round a).
    { unfold Math_round in *.
      apply IZR_le.
      apply Rnot_le_lt, lt_IZR in H; lia. }
    apply Math_round_ge in H101; lra.
  - exists (Int_part (a + / 2)); reflexivity.
Qed.

Lemma renderStatusMessage_percentage
    (st : AppState) (result : option AnalysisResult) :
  analysed result ->
  match renderStatusMessage st result with
  | ScoreDisplay percent hue =>
      0 <= percent <= 100 /\ (exists n : Z, percent = IZR n)
      /\ 0 <= hue <= 100 /\ Rabs (percent - hue) <= / 2
  | _ => True
  end.
Proof.
  intros H; apply analysed_wellFormed in H.
  destruct st; simpl; try exact I.
  destruct result as [r|]; [| exact I].
  destruct H as [Hscore _].
  destruct (Math_round_percentage (score r) Hscore) as [Hp Hn].
  pose proof (Math_round_near (score r)).
  repeat split; try tauto; try lra.
  apply Rabs_le; lra.
Qed.

(** X13.  In every state reached from the initial state, when the
    status message is the score display, the percentage it shows is a
    whole number between 0 and 100 within one half of the score, and the
    hue of its colour is between 0 and 100. *)
Theorem displayed_percentage_in_range (es : list Event) :
  let s := WindowListeners.run WindowListeners.initial es in
  let t := CanvasHandlers.run CanvasHandlers.initial es in
  match renderStatusMessage (WindowListeners.appState s)
                            (WindowListeners.result s) with
  | ScoreDisplay percent hue =>
      0 <= percent <= 100 /\ (exists n : Z, percent = IZR n)
      /\ 0 <= hue <= 100 /\ Rabs (percent - hue) <= / 2
  | _ => True
  end
  /\
  match renderStatusMessage (CanvasHandlers.appState t)
                            (CanvasHandlers.result t) with
  | ScoreDisplay percent hue =>
      0 <= percent <= 100 /\ (exists n : Z, percent = IZR n)
      /\ 0 <= hue <= 100 /\ Rabs (percent - hue) <= / 2
  | _ => True
  end.
Proof.
  intros s t; split; apply renderStatusMessage_percentage.
  - apply (windowInvariant_reached es).
  - apply (canvasInvariant_reached es).
Qed.

Lemma sampled_translate (rect1 rect2 : DOMRect) (samples : list (R * R)) :
  sampled (Some rect2) samples
  = translatePath (left rect1 - left rect2) (top rect1 - top rect2)
                  (sampled (Some rect1) samples).
Proof.
  unfold sampled, translatePath.
  induction samples as [|[cx cy] samples IH]; simpl in *; [reflexivity |].
  rewrite IH; f_equal.
  unfold translate; simpl; f_equal; ring.
Qed.

Lemma analyzeCircle_translatePath (dx dy : R) (path : list Point) :
  analyzeCircle (translatePath dx dy path)
  = option_map (translateResult dx dy) (analyzeCircle path).
Proof.
  unfold analyzeCircle; rewrite translate_length.
  destruct (length path <? 10)%nat eqn:Hlen; [reflexivity |].
  apply Nat.ltb_ge in Hlen.
  assert (Hne : (1 <= length path)%nat) by lia.
  rewrite (translate_meanRadius dx dy path Hne).
  destruct (strictEq (meanRadius path) 0); [reflexivity |].
  simpl; unfold translateResult; simpl.
  rewrite (translate_finalScore dx dy path Hne),
    (translate_centerOf dx dy path Hne).
  reflexivity.
Qed.

(** X14.  In exact real arithmetic, the analysis of a gesture does not
    depend on where the canvas lies in the viewport: for the same
    pointer samples in client coordinates and two positions of the
    canvas, the results are both null or have the same score and the
    same radius, and their centers differ by the displacement of the
    canvas.  (On binary64 numbers this holds only up to rounding, and
    not for null: see [translation_binary64_counterexample].) *)
Theorem analysis_independent_of_canvas_position
    (rect1 rect2 : DOMRect) (samples : list (R * R)) :
  analyzeCircle (sampled (Some rect2) samples)
  = option_map
      (translateResult (left rect1 - left rect2) (top rect1 - top rect2))
      (analyzeCircle (sampled (Some rect1) samples)).
Proof.
  rewrite (sampled_translate rect1 rect2).
  apply analyzeCircle_translatePath.
Qed.

(** ** The drawing effect *)

Lemma tracedVertices_app (ops1 ops2 : list CanvasOp) :
  tracedVertices (ops1 ++ ops2) = tracedVertices ops1 ++ tracedVertices ops2.
Proof.
  induction ops1 as [|op ops1 IH]; simpl; [reflexivity |].
  destruct op; simpl; rewrite IH; reflexivity.
Qed.

Lemma arcRadii_app (ops1 ops2 : list CanvasOp) :
  arcRadii (ops1 ++ ops2) = arcRadii ops1 ++ arcRadii ops2.
Proof.
  induction ops1 as [|op ops1 IH]; simpl; [reflexivity |].
  destruct op; simpl; rewrite IH; reflexivity.
Qed.

Lemma tracedVertices_lines (points : list Point) (indices : list nat) :
  tracedVertices
    (map (fun i => LineTo (x (at_ points i)) (y (at_ points i))) indices)
  = map (at_ points) indices.
Proof.
  induction indices as [|i indices IH]; simpl; [reflexivity |].
  rewrite IH; f_equal; destruct (at_ points i); reflexivity.
Qed.

Lemma arcRadii_lines (points : list Point) (indices : list nat) :
  arcRadii
    (map (fun i => LineTo (x (at_ points i)) (y (at_ points i))) indices)
  = [].
Proof. induction indices as [|i indices IH]; simpl; auto. Qed.

Lemma at_all_indices (points : list Point) :
  map (at_ points) (seq 0 (length points)) = points.
Proof.
  induction points as [|p points IH]; [reflexivity |].
  simpl length; simpl seq; simpl map.
  rewrite <- seq_shift, map_map.
  unfold at_ at 1; simpl; f_equal; exact IH.
Qed.

(** X15.  The polyline that the drawing effect strokes visits exactly
    the points of the path, in order, when the path has more than one
    point; for an empty or one-point path it traces nothing. *)
Theorem drawn_polyline_is_the_path
    (sf : Surface) (points : list Point) (result : option AnalysisResult) :
  tracedVertices (drawEffect (Some sf) points result)
  = if (1 <? length points)%nat then points else [].
Proof.
  unfold drawEffect.
  rewrite !tracedVertices_app.
  assert (Hres : tracedVertices
            match result with
            | Some result0 =>
                [ SetStrokeStyle "#4ade80"%string; SetLineWidth 3;
                  SetLineDash [8; 8]; BeginPath;
                  Arc (x (center result0)) (y (center result0))
                      (radius result0) 0 (2 * PI);
                  Stroke; SetLineDash [];
                  SetFillStyle "#f87171"%string; BeginPath;
                  Arc (x (center result0)) (y (center result0)) 5 0 (2 * PI);
                  Fill ]
            | None => []
            end = []) by (destruct result; reflexivity).
  rewrite Hres, app_nil_r; clear Hres.
  destruct (1 <? length points)%nat eqn:Hlen; [| reflexivity].
  apply Nat.ltb_lt in Hlen.
  rewrite !tracedVertices_app, tracedVertices_lines; simpl.
  rewrite app_nil_r.
  destruct points as [|p points]; [simpl in Hlen; lia |].
  replace (length (p :: points) - 1)%nat with (length points)
    by (simpl; lia).
  rewrite <- seq_shift, map_map.
  f_equal; [destruct p; reflexivity |].
  exact (at_all_indices points).
Qed.

(** X16.  In every state reached from the initial state, every radius
    that the drawing effect passes to [arc] is positive. *)
Theorem drawn_arcs_have_positive_radius (sf : Surface) (es : list Event) :
  let s := WindowListeners.run WindowListeners.initial es in
  let t := CanvasHandlers.run CanvasHandlers.initial es in
  Forall (fun r => 0 < r)
         (arcRadii (drawEffect (Some sf) (WindowListeners.points s)
                               (WindowListeners.result s)))
  /\
  Forall (fun r => 0 < r)
         (arcRadii (drawEffect (Some sf) (CanvasHandlers.points t)
                               (CanvasHandlers.result t))).
Proof.
  intros s t.
  assert (Hgen : forall points result,
             analysed result ->
             Forall (fun r => 0 < r)
                    (arcRadii (drawEffect (Some sf) points result))).
  { intros points result H; apply analysed_wellFormed in H.
    unfold drawEffect; rewrite !arcRadii_app.
    apply Forall_app; split; [constructor |].
    apply Forall_app; split.
    - destruct (1 <? length points)%nat; [| constructor].
      rewrite !arcRadii_app, arcRadii_lines; constructor.
    - destruct result as [r|]; [| constructor].
      destruct H as [_ Hrad]; simpl.
      repeat constructor; [exact Hrad | lra]. }
  split; apply Hgen.
  - apply (windowInvariant_reached es).
  - apply (canvasInvariant_reached es).
Qed.

(** ** Further properties of analyzeCircle *)

Lemma sum_app (l1 l2 : list R) :
  Spec.sum (l1 ++ l2) = Spec.sum l1 + Spec.sum l2.
Proof. induction l1 as [|a l1 IH]; simpl; [| rewrite IH]; ring. Qed.

Lemma sum_rev (l : list R) : Spec.sum (rev l) = Spec.sum l.
Proof.
  induction l as [|a l IH]; simpl; [reflexivity |].
  rewrite sum_app, IH; simpl; ring.
Qed.

Section Reversal.

Variable path : list Point.

Lemma rev_centerX : centerX (rev path) = centerX path.
Proof.
  rewrite !centerX_mean; unfold Spec.mean.
  rewrite !length_map, length_rev, map_rev, sum_rev; reflexivity.
Qed.

Lemma rev_centerY : centerY (rev path) = centerY path.
Proof.
  rewrite !centerY_mean; unfold Spec.mean.
  rewrite !length_map, length_rev, map_rev, sum_rev; reflexivity.
Qed.

Lemma rev_radii : radii (rev path) = rev (radii path).
Proof.
  unfold radii; rewrite rev_centerX, rev_centerY; apply map_rev.
Qed.

Lemma rev_meanRadius : meanRadius (rev path) = meanRadius path.
Proof.
  unfold meanRadius.
  rewrite !fold_left_sum, rev_radii, sum_rev, length_rev; reflexivity.
Qed.

Lemma rev_variance : variance (rev path) = variance path.
Proof.
  unfold variance.
  rewrite !(fold_left_plus (fun r => Math.pow (r - _) 2)).
  rewrite rev_meanRadius, rev_radii, map_rev, sum_rev, length_rev.
  reflexivity.
Qed.

Lemma rev_startPoint :
  (1 <= length path)%nat -> startPoint (rev path) = endPoint path.
Proof.
  intros H; unfold startPoint, endPoint, at_.
  rewrite rev_nth by lia; f_equal; lia.
Qed.

Lemma rev_endPoint :
  (1 <= length path)%nat -> endPoint (rev path) = startPoint path.
Proof.
  intros H; unfold startPoint, endPoint, at_.
  rewrite length_rev, rev_nth by lia; f_equal; lia.
Qed.

Lemma hypot_opp (a b : R) : Math.hypot (- a) (- b) = Math.hypot a b.
Proof. unfold Math.hypot; f_equal; ring. Qed.

Lemma rev_closingDistance :
  (1 <= length path)%nat ->
  closingDistance (rev path) = closingDistance path.
Proof.
  intros H; unfold closingDistance.
  rewrite rev_startPoint, rev_endPoint by exact H.
  rewrite <- hypot_opp; f_equal; ring.
Qed.

Lemma rev_finalScore :
  (1 <= length path)%nat -> finalScore (rev path) = finalScore path.
Proof.
  intros H.
  unfold finalScore, closingPenalty, scoreFromShape, normalizedDeviation,
    stdDev.
  rewrite rev_variance, rev_meanRadius, rev_closingDistance by exact H.
  reflexivity.
Qed.

End Reversal.

(** X17.  The analysis does not depend on the direction in which the
    path was drawn: the reversed path has the same result. *)
Theorem analyzeCircle_reversed (path : list Point) :
  analyzeCircle (rev path) = analyzeCircle path.
Proof.
  unfold analyzeCircle.
  rewrite length_rev, rev_meanRadius.
  destruct (length path <? 10)%nat eqn:Hlen; [reflexivity |].
  apply Nat.ltb_ge in Hlen.
  destruct (strictEq (meanRadius path) 0); [reflexivity |].
  rewrite rev_finalScore by lia.
  unfold centerOf; rewrite rev_centerX, rev_centerY; reflexivity.
Qed.

Lemma variance_zero_iff (path : list Point) :
  (1 <= length path)%nat ->
  (variance path = 0 <-> Forall (fun r => r = meanRadius path) (radii path)).
Proof.
  intros Hn; pose proof (length_pos path Hn) as Hlen.
  unfold variance.
  rewrite (fold_left_plus (fun r => Math.pow (r - meanRadius path) 2)).
  rewrite Rplus_0_l, radii_length.
  assert (Hsq : forall r, Math.pow (r - meanRadius path) 2 = 0
                          <-> r = meanRadius path).
  { intros r; unfold Math.pow; split; intros H; [nra | subst; ring]. }
  split; intros H.
  - assert (Hs : Spec.sum (map (fun r => Math.pow (r - meanRadius path) 2)
                               (radii path)) = 0).
    { apply Rmult_integral in H; destruct H as [H | H]; [exact H |].
      pose proof (Rinv_0_lt_compat _ Hlen); lra. }
    apply sum_zero_all_zero in Hs;
      [| intros r; unfold Math.pow; apply pow2_ge_0].
    eapply Forall_impl; [| exact Hs].
    intros r Hr; apply Hsq, Hr.
  - rewrite all_zero_sum_zero; [unfold Rdiv; apply Rmult_0_l |].
    eapply Forall_impl; [| exact H].
    intros r Hr; apply Hsq, Hr.
Qed.

Lemma scoreFromShape_full_iff (path : list Point) :
  (1 <= length path)%nat -> meanRadius path <> 0 ->
  (scoreFromShape path = 100 <-> variance path = 0).
Proof.
  intros Hn Hr; pose proof (meanRadius_pos path Hr) as Hpos.
  pose proof (normalizedDeviation_nonneg path Hr) as Hnd.
  unfold scoreFromShape, Math.max.
  split; intros H.
  - assert (Hz : normalizedDeviation path = 0).
    { unfold Rmax in H.
      destruct (Rle_dec 0 ((1 - normalizedDeviation path * 3) * 100));
        lra. }
    unfold normalizedDeviation, stdDev, Math.sqrt in Hz.
    apply Rmult_integral in Hz; destruct Hz as [Hz | Hz].
    + apply sqrt_eq_0 in Hz; [exact Hz | apply variance_nonneg].
    + pose proof (Rinv_0_lt_compat _ Hpos); lra.
  - unfold normalizedDeviation, stdDev, Math.sqrt.
    rewrite H, sqrt_0; unfold Rdiv; rewrite Rmult_0_l.
    rewrite Rmax_right; lra.
Qed.

Lemma closingPenalty_zero_iff (path : list Point) :
  meanRadius path <> 0 ->
  (closingPenalty path = 0 <-> startPoint path = endPoint path).
Proof.
  intros Hr; pose proof (meanRadius_pos path Hr) as Hpos.
  pose proof (Rinv_0_lt_compat _ Hpos) as Hinv.
  unfold closingPenalty, Math.min, closingDistance.
  split; intros H.
  - assert (Hq : Math.hypot (x (endPoint path) - x (startPoint path))
                            (y (endPoint path) - y (startPoint path)) = 0).
    { unfold Rmin in H.
      destruct (Rle_dec 1
                  (Math.hypot (x (endPoint path) - x (startPoint path))
                              (y (endPoint path) - y (startPoint path))
                   / meanRadius path)); [lra |].
      assert (Hm : Math.hypot (x (endPoint path) - x (startPoint path))
                              (y (endPoint path) - y (startPoint path))
                   * / meanRadius path = 0) by (unfold Rdiv in H; lra).
      apply Rmult_integral in Hm; destruct Hm; lra. }
    apply hypot_zero in Hq; destruct Hq as [Hx Hy].
    destruct (startPoint path) as [sx sy], (endPoint path) as [ex ey].
    simpl in *; f_equal; lra.
  - rewrite H.
    replace (Math.hypot (x (endPoint path) - x (endPoint path))
                        (y (endPoint path) - y (endPoint path))) with 0.
    + unfold Rdiv; rewrite Rmult_0_l, Rmin_right; lra.
    + symmetry; apply hypot_zero; split; ring.
Qed.

(** X18.  A result has the score 100 exactly when every point of the
    path is at the same distance, the returned radius, from the returned
    center and the path is closed (its first and last point
    coincide). *)
Theorem perfect_score_iff (path : list Point) (r : AnalysisResult) :
  analyzeCircle path = Some r ->
  (score r = 100 <->
   Forall (fun p => Math.hypot (x p - x (center r)) (y p - y (center r))
                    = radius r) path
   /\ startPoint path = endPoint path).
Proof.
  intros H; apply analyzeCircle_some in H; destruct H as (Hlen & Hr & ->).
  simpl.
  assert (Hn : (1 <= length path)%nat) by lia.
  pose proof (scoreFromShape_bounds path Hr) as Hshape.
  pose proof (closingPenalty_bounds path Hr) as Hpen.
  rewrite <- (closingPenalty_zero_iff path Hr).
  assert (Heq : Forall (fun p => Math.hypot (x p - centerX path)
                                            (y p - centerY path)
                                 = meanRadius path) path
                <-> scoreFromShape path = 100).
  { rewrite (scoreFromShape_full_iff path Hn Hr),
      (variance_zero_iff path Hn).
    unfold radii; rewrite Forall_map; reflexivity. }
  rewrite Heq.
  unfold finalScore, Math.max; split.
  - intros H.
    unfold Rmax in H.
    destruct (Rle_dec 0 (scoreFromShape path - closingPenalty path)); lra.
  - intros [Hs Hp]; rewrite Hs, Hp, Rmax_right; lra.
Qed.

Lemma perfect_score_iff_witness :
  analyzeCircle zigzag
  = Some {| score := finalScore zigzag; center := centerOf zigzag;
            radius := meanRadius zigzag |}
  /\ (finalScore zigzag = 100 <->
      Forall (fun p => Math.hypot (x p - centerX zigzag)
                                  (y p - centerY zigzag)
                       = meanRadius zigzag) zigzag
      /\ startPoint zigzag = endPoint zigzag).
Proof.
  split; [exact zigzag_analysis |].
  exact (perfect_score_iff zigzag _ zigzag_analysis).
Defined.

Section Scaling.

Variable k : R.
Hypothesis k_nonzero : k <> 0.
Variable path : list Point.

Lemma hypot_scale (a b : R) :
  Math.hypot (k * a) (k * b) = Rabs k * Math.hypot a b.
Proof.
  unfold Math.hypot.
  replace (k * a * (k * a) + k * b * (k * b))
    with (Rsqr k * (a * a + b * b)) by (unfold Rsqr; ring).
  rewrite sqrt_mult_alt by apply Rle_0_sqr.
  rewrite sqrt_Rsqr_abs; reflexivity.
Qed.

Lemma Rabs_square : Rabs k * Rabs k = k * k.
Proof.
  pose proof (Rsqr_abs k) as H; unfold Rsqr in H; symmetry; exact H.
Qed.

Lemma Rabs_k_pos : 0 < Rabs k.
Proof. apply Rabs_pos_lt, k_nonzero. Qed.

Lemma scale_centerX : centerX (scalePath k path) = k * centerX path.
Proof.
  rewrite !centerX_mean; unfold Spec.mean, scalePath.
  rewrite !length_map, map_map; simpl.
  rewrite (sum_map_scale x k path); unfold Rdiv; ring.
Qed.

Lemma scale_centerY : centerY (scalePath k path) = k * centerY path.
Proof.
  rewrite !centerY_mean; unfold Spec.mean, scalePath.
  rewrite !length_map, map_map; simpl.
  rewrite (sum_map_scale y k path); unfold Rdiv; ring.
Qed.

Lemma scale_radii :
  radii (scalePath k path) = map (fun r => Rabs k * r) (radii path).
Proof.
  unfold radii; rewrite scale_centerX, scale_centerY.
  unfold scalePath; rewrite !map_map.
  apply map_ext; intros p; simpl.
  rewrite <- hypot_scale; f_equal; ring.
Qed.

Lemma scale_meanRadius :
  meanRadius (scalePath k path) = Rabs k * meanRadius path.
Proof.
  unfold meanRadius.
  rewrite !fold_left_sum, scale_radii, length_map.
  rewrite (sum_map_scale (fun r => r) (Rabs k)), map_id.
  unfold Rdiv; ring.
Qed.

Lemma scale_variance :
  variance (scalePath k path) = k * k * variance path.
Proof.
  unfold variance.
  rewrite !(fold_left_plus (fun r => Math.pow (r - _) 2)).
  rewrite scale_meanRadius, scale_radii, length_map, map_map.
  rewrite (map_ext _ (fun r => k * k * Math.pow (r - meanRadius path) 2)).
  - rewrite (sum_map_scale (fun r => Math.pow (r - meanRadius path) 2)).
    unfold Rdiv; ring.
  - intros r; unfold Math.pow.
    replace ((Rabs k * r - Rabs k * meanRadius path) ^ 2)
      with (Rabs k * Rabs k * (r - meanRadius path) ^ 2) by ring.
    rewrite Rabs_square; reflexivity.
Qed.

Lemma scale_stdDev : stdDev (scalePath k path) = Rabs k * stdDev path.
Proof.
  unfold stdDev, Math.sqrt; rewrite scale_variance.
  change (k * k) with (Rsqr k).
  rewrite sqrt_mult_alt by apply Rle_0_sqr.
  rewrite sqrt_Rsqr_abs; reflexivity.
Qed.

Lemma scale_normalizedDeviation :
  normalizedDeviation (scalePath k path) = normalizedDeviation path.
Proof.
  unfold normalizedDeviation.
  rewrite scale_stdDev, scale_meanRadius.
  pose proof Rabs_k_pos.
  unfold Rdiv; rewrite Rinv_mult, <- Rmult_assoc.
  rewrite (Rmult_comm (Rabs k * stdDev path)), <- !Rmult_assoc.
  rewrite Rinv_l by lra; ring.
Qed.

Lemma scale_at (i : nat) : at_ (scalePath k path) i = scale k (at_ path i).
Proof.
  unfold at_, scalePath.
  replace {| x := 0; y := 0 |} with (scale k {| x := 0; y := 0 |}) at 1
    by (unfold scale; simpl; f_equal; ring).
  apply map_nth.
Qed.

Lemma scale_closingDistance :
  closingDistance (scalePath k path) = Rabs k * closingDistance path.
Proof.
  unfold closingDistance, startPoint, endPoint, scalePath.
  rewrite length_map; fold (scalePath k path).
  rewrite !scale_at; simpl.
  rewrite <- hypot_scale; f_equal; ring.
Qed.

Lemma scale_closingPenalty :
  closingPenalty (scalePath k path) = closingPenalty path.
Proof.
  unfold closingPenalty.
  rewrite scale_closingDistance, scale_meanRadius.
  pose proof Rabs_k_pos.
  do 2 f_equal.
  unfold Rdiv; rewrite Rinv_mult.
  rewrite (Rmult_comm (/ Rabs k)), <- Rmult_assoc.
  rewrite (Rmult_assoc (Rabs k)), (Rmult_comm (closingDistance path)).
  rewrite <- !Rmult_assoc, (Rmult_comm (Rabs k)).
  rewrite (Rmult_assoc (/ meanRadius path)), (Rmult_assoc (/ meanRadius path)).
  rewrite (Rmult_comm (Rabs k)), (Rmult_assoc (closingDistance path)).
  rewrite Rinv_r by lra; ring.
Qed.

Lemma scale_finalScore : finalScore (scalePath k path) = finalScore path.
Proof.
  unfold finalScore, scoreFromShape.
  rewrite scale_normalizedDeviation, scale_closingPenalty; reflexivity.
Qed.

End Scaling.

(** X19.  The score does not depend on the size of the drawing:
    scaling every point of the path by a factor k <> 0 about the origin
    leaves the score unchanged, scales the center by k and the radius by
    |k|, and gives null exactly when the original path gives null. *)
Theorem analyzeCircle_scaled (k : R) (path : list Point) :
  k <> 0 ->
  analyzeCircle (scalePath k path)
  = option_map (scaleResult k) (analyzeCircle path).
Proof.
  intros Hk; unfold analyzeCircle.
  unfold scalePath at 1; rewrite length_map.
  destruct (length path <? 10)%nat; [reflexivity |].
  rewrite (scale_meanRadius k path).
  pose proof (Rabs_k_pos k Hk) as Hpos.
  destruct (strictEq (meanRadius path) 0) eqn:Hr.
  - apply strictEq_true in Hr; rewrite Hr, Rmult_0_r.
    assert (E : strictEq 0 0 = true) by (apply strictEq_true; reflexivity).
    rewrite E; reflexivity.
  - apply strictEq_false in Hr.
    assert (E : strictEq (Rabs k * meanRadius path) 0 = false).
    { apply strictEq_false; intros H.
      apply Rmult_integral in H; destruct H; lra. }
    rewrite E; simpl; unfold scaleResult; simpl.
    rewrite (scale_finalScore k Hk path).
    unfold centerOf, scale; simpl.
    rewrite scale_centerX, scale_centerY; reflexivity.
Qed.

Lemma analyzeCircle_scaled_witness :
  2 <> 0 /\
  analyzeCircle (scalePath 2 zigzag)
  = option_map (scaleResult 2) (analyzeCircle zigzag).
Proof.
  assert (H : 2 <> 0) by lra.
  split; [exact H | exact (analyzeCircle_scaled 2 zigzag H)].
Defined.

Section Isometry.

Variables a b c d : R.
Hypothesis orthogonal : isometry a b c d.
Variable path : list Point.

Lemma hypot_isometry (u v : R) :
  Math.hypot (a * u + b * v) (c * u + d * v) = Math.hypot u v.
Proof.
  destruct orthogonal as (H1 & H2 & H3).
  unfold Math.hypot; f_equal.
  replace ((a * u + b * v) * (a * u + b * v)
           + (c * u + d * v) * (c * u + d * v))
    with ((a * a + c * c) * (u * u) + (b * b + d * d) * (v * v)
          + 2 * (a * b + c * d) * (u * v)) by ring.
  rewrite H1, H2, H3; ring.
Qed.

Lemma linear_centerX :
  centerX (linearPath a b c d path) = a * centerX path + b * centerY path.
Proof.
  rewrite !centerX_mean, centerY_mean; unfold Spec.mean, linearPath.
  rewrite !length_map, map_map; simpl.
  rewrite (map_ext _ (fun p => a * x p + b * y p + 0))
    by (intros p; ring).
  rewrite sum_map_affine; unfold Rdiv; ring.
Qed.

Lemma linear_centerY :
  centerY (linearPath a b c d path) = c * centerX path + d * centerY path.
Proof.
  rewrite !centerY_mean, centerX_mean; unfold Spec.mean, linearPath.
  rewrite !length_map, map_map; simpl.
  rewrite (map_ext _ (fun p => c * x p + d * y p + 0))
    by (intros p; ring).
  rewrite sum_map_affine; unfold Rdiv; ring.
Qed.

Lemma linear_radii : radii (linearPath a b c d path) = radii path.
Proof.
  unfold radii; rewrite linear_centerX, linear_centerY.
  unfold linearPath; rewrite map_map.
  apply map_ext; intros p; simpl.
  rewrite <- (hypot_isometry (x p - centerX path) (y p - centerY path)).
  f_equal; ring.
Qed.

Lemma linear_meanRadius :
  meanRadius (linearPath a b c d path) = meanRadius path.
Proof. unfold meanRadius; rewrite linear_radii; reflexivity. Qed.

Lemma linear_variance : variance (linearPath a b c d path) = variance path.
Proof.
  unfold variance; rewrite linear_radii, linear_meanRadius; reflexivity.
Qed.

Lemma linear_at (i : nat) :
  at_ (linearPath a b c d path) i = linear a b c d (at_ path i).
Proof.
  unfold at_, linearPath.
  replace {| x := 0; y := 0 |}
    with (linear a b c d {| x := 0; y := 0 |}) at 1
    by (unfold linear; simpl; f_equal; ring).
  apply map_nth.
Qed.

Lemma linear_closingDistance :
  closingDistance (linearPath a b c d path) = closingDistance path.
Proof.
  unfold closingDistance, startPoint, endPoint, linearPath.
  rewrite length_map; fold (linearPath a b c d path).
  rewrite !linear_at; simpl.
  rewrite <- (hypot_isometry
                (x (at_ path (length path - 1)) - x (at_ path 0))
                (y (at_ path (length path - 1)) - y (at_ path 0))).
  f_equal; ring.
Qed.

Lemma linear_finalScore :
  finalScore (linearPath a b c d path) = finalScore path.
Proof.
  unfold finalScore, closingPenalty, scoreFromShape, normalizedDeviation,
    stdDev.
  rewrite linear_variance, linear_meanRadius, linear_closingDistance.
  reflexivity.
Qed.

End Isometry.

(** X20.  The analysis does not depend on the orientation of the
    drawing: rotating or reflecting every point of the path (a linear
    map with an orthogonal matrix) leaves the score and the radius
    unchanged and maps the center in the same way; the result is null
    exactly when the original is. *)
Theorem analyzeCircle_rotated (a b c d : R) (path : list Point) :
  isometry a b c d ->
  analyzeCircle (linearPath a b c d path)
  = option_map (linearResult a b c d) (analyzeCircle path).
Proof.
  intros Hiso; unfold analyzeCircle.
  unfold linearPath at 1; rewrite length_map.
  destruct (length path <? 10)%nat; [reflexivity |].
  rewrite (linear_meanRadius a b c d Hiso path).
  destruct (strictEq (meanRadius path) 0); [reflexivity |].
  simpl; unfold linearResult; simpl.
  rewrite (linear_finalScore a b c d Hiso path).
  unfold centerOf, linear; simpl.
  rewrite linear_centerX, linear_centerY; reflexivity.
Qed.

Lemma analyzeCircle_rotated_witness :
  isometry 0 (-1) 1 0 /\
  analyzeCircle (linearPath 0 (-1) 1 0 zigzag)
  = option_map (linearResult 0 (-1) 1 0) (analyzeCircle zigzag).
Proof.
  assert (H : isometry 0 (-1) 1 0) by (unfold isometry; repeat split; lra).
  split; [exact H | exact (analyzeCircle_rotated 0 (-1) 1 0 zigzag H)].
Defined.

(** X22.  Leaving the loop open costs at most 25 points: the score of a
    result lies between the shape score minus 25 and the shape
    score. *)
Theorem open_loop_costs_at_most_25 (path : list Point) (r : AnalysisResult) :
  analyzeCircle path = Some r ->
  scoreFromShape path - 25 <= score r <= scoreFromShape path.
Proof.
  intros H; apply analyzeCircle_some in H; destruct H as (_ & Hr & ->).
  simpl.
  pose proof (scoreFromShape_bounds path Hr) as Hshape.
  pose proof (closingPenalty_bounds path Hr) as Hpen.
  unfold finalScore, Math.max; split.
  - apply Rle_trans with (scoreFromShape path - closingPenalty path);
      [lra | apply Rmax_r].
  - apply Rmax_lub; lra.
Qed.

Lemma open_loop_costs_at_most_25_witness :
  analyzeCircle zigzag
  = Some {| score := finalScore zigzag; center := centerOf zigzag;
            radius := meanRadius zigzag |}
  /\ scoreFromShape zigzag - 25 <= finalScore zigzag
     <= scoreFromShape zigzag.
Proof.
  split; [exact zigzag_analysis |].
  exact (open_loop_costs_at_most_25 zigzag _ zigzag_analysis).
Defined.

(** X23.  When the standard deviation of the radii is at least one
    third of the mean radius, the score is 0, however well the path is
    closed. *)
Theorem score_zero_at_one_third_deviation
    (path : list Point) (r : AnalysisResult) :
  analyzeCircle path = Some r ->
  meanRadius path <= 3 * stdDev path ->
  score r = 0.
Proof.
  intros H Hdev; apply analyzeCircle_some in H.
  destruct H as (_ & Hr & ->); simpl.
  pose proof (meanRadius_pos path Hr) as Hpos.
  pose proof (closingPenalty_bounds path Hr) as Hpen.
  assert (Hnd : 1 <= normalizedDeviation path * 3).
  { unfold normalizedDeviation.
    apply Rmult_le_reg_r with (r := meanRadius path); [exact Hpos |].
    unfold Rdiv.
    replace (stdDev path * / meanRadius path * 3 * meanRadius path)
      with (3 * stdDev path * (/ meanRadius path * meanRadius path))
      by ring.
    rewrite Rinv_l by lra; lra. }
  assert (Hshape : scoreFromShape path = 0).
  { unfold scoreFromShape, Math.max; apply Rmax_left; nra. }
  unfold finalScore, Math.max; rewrite Hshape.
  apply Rmax_left; lra.
Qed.

Lemma score_zero_at_one_third_deviation_witness :
  analyzeCircle dwellArc
  = Some {| score := finalScore dwellArc; center := centerOf dwellArc;
            radius := meanRadius dwellArc |}
  /\ meanRadius dwellArc <= 3 * stdDev dwellArc
  /\ finalScore dwellArc = 0.
Proof.
  assert (Hdev : meanRadius dwellArc <= 3 * stdDev dwellArc).
  { unfold stdDev, Math.sqrt.
    rewrite dwellArc_meanRadius, dwellArc_variance, sqrt_square; lra. }
  split; [exact dwellArc_analysis |].
  split; [exact Hdev |].
  exact (score_zero_at_one_third_deviation dwellArc _ dwellArc_analysis Hdev).
Defined.

(** X24.  After a complete gesture and its analysis, a further
    gesture-end event (mouse up, mouse leave or touch end on the canvas)
    discards the result in the version with canvas handlers, which
    returns to its initial state; in the version with window listeners
    the event is not delivered and the result stays. *)
Theorem gesture_end_after_result (path : list Point) :
  (10 <= length path)%nat ->
  CanvasHandlers.run CanvasHandlers.initial
    (gesture path ++ [Timeout; GestureEnd])
  = CanvasHandlers.initial
  /\
  WindowListeners.run WindowListeners.initial
    (gesture path ++ [Timeout; GestureEnd])
  = WindowListeners.run WindowListeners.initial (gesture path ++ [Timeout]).
Proof.
  intros Hlen.
  destruct (complete_gesture_states path Hlen) as [Hs Ht].
  change [Timeout; GestureEnd] with ([Timeout] ++ [GestureEnd]).
  rewrite app_assoc, window_run_app, canvas_run_app, Hs, Ht.
  split; reflexivity.
Qed.

Lemma gesture_end_after_result_witness :
  (10 <= length zigzag)%nat /\
  CanvasHandlers.run CanvasHandlers.initial
    (gesture zigzag ++ [Timeout; GestureEnd])
  = CanvasHandlers.initial.
Proof.
  assert (H : (10 <= length zigzag)%nat) by (simpl; lia).
  split; [exact H | exact (proj1 (gesture_end_after_result zigzag H))].
Defined.

(** ** analyzeCircle on binary64 numbers *)

(** C2.  The degenerate-path guard misses paths of identical points.
    For ten samples at (0.1, 0.1) the rounded centroid is
    0.09999999999999999 in both coordinates, so every radius and the
    mean radius are positive and [meanRadius === 0] is false: the result
    is not null; it has a positive radius below 2^-53 and a score above
    99.5.  The same holds for ten samples at (100.1, 200.7), whose score
    is exactly 100. *)
Theorem identical_points_are_scored :
  Forall (fun p => p = Binary64.mkPoint 0x1.999999999999ap-4
                                        0x1.999999999999ap-4) stillPath
  /\ (exists r : Binary64.AnalysisResult,
        Binary64.analyzeCircle stillPath = Some r /\
        Binary64.center r
        = Binary64.mkPoint 0x1.9999999999999p-4 0x1.9999999999999p-4 /\
        (0 <? Binary64.radius r)%float = true /\
        (Binary64.radius r <? 0x1p-53)%float = true /\
        (99.5 <? Binary64.score r)%float = true)
  /\ (exists r : Binary64.AnalysisResult,
        Binary64.analyzeCircle stillPath' = Some r /\
        (0 <? Binary64.radius r)%float = true /\
        (Binary64.score r =? 100)%float = true).
Proof.
  split; [| split].
  - unfold stillPath; apply Forall_forall; intros p Hp.
    apply repeat_spec in Hp; exact Hp.
  - eexists; split; [vm_compute; reflexivity |].
    repeat split; vm_compute; reflexivity.
  - eexists; split; [vm_compute; reflexivity |].
    repeat split; vm_compute; reflexivity.
Qed.

(** C4, as stated, fails on binary64 numbers.  Translating the ten
    samples at (0.1, 0.1) by (-0.1, -0.1) gives ten samples at (0, 0):
    the original path is scored and the translated one is null.  And
    translating [pixelPath] by (10, 0) changes the score in its last
    digits. *)
Lemma translation_binary64_counterexample :
  (Binary64.translatePath (-0x1.999999999999ap-4) (-0x1.999999999999ap-4)
     stillPath
   = repeat (Binary64.mkPoint 0 0) 10
   /\ Binary64.analyzeCircle stillPath <> None
   /\ Binary64.analyzeCircle
        (Binary64.translatePath (-0x1.999999999999ap-4)
           (-0x1.999999999999ap-4) stillPath) = None)
  /\
  (exists r r' : Binary64.AnalysisResult,
     Binary64.analyzeCircle pixelPath = Some r /\
     Binary64.analyzeCircle (Binary64.translatePath 10 0 pixelPath)
     = Some r' /\
     (Binary64.score r =? Binary64.score r')%float = false).
Proof.
  split; [split; [| split] |].
  - vm_compute; reflexivity.
  - vm_compute; intros H; discriminate H.
  - vm_compute; reflexivity.
  - do 2 eexists; split; [vm_compute; reflexivity |].
    split; vm_compute; reflexivity.
Qed.
